(** * A shallow embedding of the intrusive doubly-linked list of dlist.h

    Pointers are addresses in [Z], [NULL] is [0].  Memory holding link nodes
    ([dlist_node_t]) is a finite map from addresses to nodes; reading or
    writing a node at an address that is not allocated is a memory fault.
    A failed [assert] and a call to [panic] both abort the process. *)

From stdpp Require Import base gmap list.
From Stdlib Require Import ZArith Lia.

Open Scope Z_scope.

(** ** Data *)

(** [typedef struct dlist_node_struct { next; prev } dlist_node_t] *)
Record dlist_node_t := mk_node { next : Z; prev : Z }.

(** [typedef struct { head; tail } dlist_t] *)
Record dlist_t := mk_root { head : Z; tail : Z }.

Definition NULL : Z := 0.

(** The machine state: the memory holding link nodes and one list handle. *)
Record state := mk_state { heap : gmap Z dlist_node_t; root : dlist_t }.

(** ** A small state-and-failure monad *)

Inductive outcome (A : Type) :=
| Ok (a : A) (s : state)
| Abort          (* assert failure or panic(): the process terminates *)
| Fault          (* dereference of an address that holds no node *)
| Diverge.       (* the loop did not end within the available steps *)
Arguments Ok {A} a s.
Arguments Abort {A}.
Arguments Fault {A}.
Arguments Diverge {A}.

Definition M (A : Type) : Type := state -> outcome A.

Definition ret {A} (a : A) : M A := fun s => Ok a s.

Definition bind {A B} (m : M A) (k : A -> M B) : M B :=
  fun s => match m s with
           | Ok a s' => k a s'
           | Abort => Abort
           | Fault => Fault
           | Diverge => Diverge
           end.

Notation "'let!' x := m 'in' k" := (bind m (fun x => k))
  (at level 200, x name, m at level 100, right associativity).
Notation "m ;;; k" := (bind m (fun _ => k))
  (at level 100, right associativity).

Definition assert (b : bool) : M unit :=
  fun s => if b then Ok tt s else Abort.

Definition panic {A} : M A := fun _ => Abort.

Definition get_head : M Z := fun s => Ok (head (root s)) s.
Definition get_tail : M Z := fun s => Ok (tail (root s)) s.
Definition set_head (p : Z) : M unit :=
  fun s => Ok tt (mk_state (heap s) (mk_root p (tail (root s)))).
Definition set_tail (p : Z) : M unit :=
  fun s => Ok tt (mk_state (heap s) (mk_root (head (root s)) p)).

(** [p->next] and [p->prev] *)
Definition get_next (p : Z) : M Z :=
  fun s => match heap s !! p with Some n => Ok (next n) s | None => Fault end.
Definition get_prev (p : Z) : M Z :=
  fun s => match heap s !! p with Some n => Ok (prev n) s | None => Fault end.

(** [p->next = v] and [p->prev = v] *)
Definition set_next (p v : Z) : M unit :=
  fun s => match heap s !! p with
           | Some n => Ok tt (mk_state (<[p := mk_node v (prev n)]> (heap s)) (root s))
           | None => Fault
           end.
Definition set_prev (p v : Z) : M unit :=
  fun s => match heap s !! p with
           | Some n => Ok tt (mk_state (<[p := mk_node (next n) v]> (heap s)) (root s))
           | None => Fault
           end.

Definition nonnull (p : Z) : bool := negb (p =? NULL).
Arguments nonnull : simpl never.

(** ** The core list engine (dlist.h, private functions) *)

Definition dlist_init : M unit :=
  set_head NULL ;;;
  set_tail NULL.

(** The poison value written by [dlist_destroy]. *)
Definition poison : Z := 0xdeadbeef.

Definition dlist_destroy : M unit :=
  let! h := get_head in
  (if nonnull h then panic else ret tt) ;;;
  let! t := get_tail in
  (if nonnull t then panic else ret tt) ;;;
  set_head poison ;;;
  set_tail poison.

Definition dlist_enqueue (data : Z) : M unit :=
  set_prev data NULL ;;;
  let! old_head := get_head in
  set_next data old_head ;;;
  (if negb (nonnull old_head) then
     let! t := get_tail in
     assert (negb (nonnull t)) ;;;
     set_tail data
   else
     let! op := get_prev old_head in
     assert (negb (nonnull op)) ;;;
     set_prev old_head data) ;;;
  set_head data.

Definition dlist_pushback (data : Z) : M unit :=
  set_next data NULL ;;;
  let! old_tail := get_tail in
  set_prev data old_tail ;;;
  (if negb (nonnull old_tail) then
     let! h := get_head in
     assert (negb (nonnull h)) ;;;
     set_head data
   else
     let! on := get_next old_tail in
     assert (negb (nonnull on)) ;;;
     set_next old_tail data) ;;;
  set_tail data.

Definition dlist_push (data : Z) : M unit := dlist_enqueue data.

Definition dlist_dequeue : M Z :=
  let! t := get_tail in
  if negb (nonnull t) then ret NULL else
  let retnode := t in
  let! p := get_prev retnode in
  set_tail p ;;;
  let! h := get_head in
  (if h =? retnode then set_head NULL
   else let! t' := get_tail in set_next t' NULL) ;;;
  ret retnode.

Definition dlist_pop : M Z :=
  let! h := get_head in
  if negb (nonnull h) then ret NULL else
  let retnode := h in
  let! n := get_next retnode in
  set_head n ;;;
  let! t := get_tail in
  (if t =? retnode then set_tail NULL
   else let! h' := get_head in set_prev h' NULL) ;;;
  ret retnode.

Definition dlist_remove (data : Z) : M unit :=
  let! dp := get_prev data in
  (if nonnull dp then
     let! dn := get_next data in
     set_next dp dn
   else
     let! h := get_head in
     assert (h =? data) ;;;
     let! dn := get_next data in
     set_head dn) ;;;
  let! dn := get_next data in
  (if nonnull dn then
     let! dp' := get_prev data in
     set_prev dn dp'
   else
     let! t := get_tail in
     assert (t =? data) ;;;
     let! dp' := get_prev data in
     set_tail dp').

Definition dlist_head : M Z := get_head.
Definition dlist_tail : M Z := get_tail.

(** [dlist_check]: walk from [head] along [next], asserting the adjacency
    invariants, then assert that the last node visited is [tail].  The walk
    is bounded by one more than the number of allocated nodes: every
    iteration dereferences [ptr], so a walk that gets past that bound has
    visited some node twice, and the C loop then never ends. *)
Fixpoint check_loop (fuel : nat) (ptr last_ptr : Z) : M Z :=
  if negb (nonnull ptr) then ret last_ptr else
  match fuel with
  | O => fun _ => Diverge
  | S fuel' =>
      (if nonnull last_ptr then
         let! ln := get_next last_ptr in
         assert (ln =? ptr) ;;;
         let! pp := get_prev ptr in
         assert (last_ptr =? pp)
       else
         let! pp := get_prev ptr in
         assert (pp =? NULL)) ;;;
      let! nx := get_next ptr in
      check_loop fuel' nx ptr
  end.

Definition dlist_check : M unit :=
  let! h := get_head in
  let! last_ptr := (fun s => check_loop (S (size (heap s))) h NULL s) in
  let! t := get_tail in
  assert (last_ptr =? t).

(** ** The generic binding (DEFINE_DLIST) and the fold functions

    [off] is [OFFSET(type, metaname)], the byte offset of the embedded
    [dlist_node_t] inside the record type.  Pointer arithmetic is on 64-bit
    addresses. *)

Definition addr_mod : Z := 2 ^ 64.

(** [GET_CONTAINER(var, type, metaname)]: [(char* )var - OFFSET(type, metaname)] *)
Definition GET_CONTAINER (off var : Z) : Z := (var - off) mod addr_mod.

(** [&(data->metaname)] *)
Definition field_addr (off data : Z) : Z := (data + off) mod addr_mod.

Section Binding.
Variable off : Z.

Definition dlist_type_init : M unit := dlist_init.
Definition dlist_type_destroy : M unit := dlist_destroy.
Definition dlist_type_check : M unit := dlist_check.
Definition dlist_type_enqueue (data : Z) : M unit := dlist_enqueue (field_addr off data).
Definition dlist_type_pushback (data : Z) : M unit := dlist_pushback (field_addr off data).
Definition dlist_type_push (data : Z) : M unit := dlist_push (field_addr off data).
Definition dlist_type_dequeue : M Z :=
  let! p := dlist_dequeue in ret (GET_CONTAINER off p).
Definition dlist_type_pop : M Z :=
  let! p := dlist_pop in ret (GET_CONTAINER off p).
Definition dlist_type_remove (data : Z) : M unit := dlist_remove (field_addr off data).
Definition dlist_type_head : M Z :=
  let! p := dlist_head in ret (GET_CONTAINER off p).
Definition dlist_type_tail : M Z :=
  let! p := dlist_tail in ret (GET_CONTAINER off p).

(** The fold loops.  The reducer [func] receives the record pointer and the
    accumulator and returns the new accumulator together with the value it
    left in [*terminate] (initialised to 0 before each call).  Besides the
    final accumulator, the loop returns the record pointers passed to
    [func], in call order: the trace of the reducer's invocations.  [step]
    is [get_next] for [foldr] and [get_prev] for [foldl]. *)
Section Fold.
Variable A : Type.
Variable func : Z -> A -> A * bool.

Fixpoint fold_loop (step : Z -> M Z) (fuel : nat) (ptr : Z) (result : A)
  : M (A * list Z) :=
  if negb (nonnull ptr) then ret (result, []) else
  match fuel with
  | O => fun _ => Diverge
  | S fuel' =>
      let rec := GET_CONTAINER off ptr in
      let (result', terminate) := func rec result in
      if terminate then ret (result', [rec]) else
      let! nx := step ptr in
      let! rt := fold_loop step fuel' nx result' in
      ret (fst rt, rec :: snd rt)
  end.

(** [for (ptr = root->head; ptr; ptr = ptr->next)] *)
Definition dlist_type_foldr (init : A) : M (A * list Z) :=
  let! h := get_head in
  fun s => fold_loop get_next (S (size (heap s))) h init s.

(** [for (ptr = root->tail; ptr; ptr = ptr->prev)] *)
Definition dlist_type_foldl (init : A) : M (A * list Z) :=
  let! t := get_tail in
  fun s => fold_loop get_prev (S (size (heap s))) t init s.

End Fold.
End Binding.

Arguments fold_loop off {A} func step fuel ptr result.
Arguments dlist_type_foldr off {A} func init.
Arguments dlist_type_foldl off {A} func init.

(** ** Walking the list and reachable states *)

(** The nodes met walking from [p] along [next]: the members of the list
    when [p] is the head. *)
Fixpoint walk (fuel : nat) (h : gmap Z dlist_node_t) (p : Z) : list Z :=
  if negb (nonnull p) then [] else
  match fuel with
  | O => []
  | S fuel' =>
      match h !! p with
      | Some n => p :: walk fuel' h (next n)
      | None => []
      end
  end.

Definition members (s : state) : list Z :=
  walk (size (heap s)) (heap s) (head (root s)).

(** The public operations on a list handle. *)
Inductive op :=
| OEnqueue (data : Z)
| OPushback (data : Z)
| OPush (data : Z)
| OPop
| ODequeue
| ORemove (data : Z).

Definition exec (o : op) : M unit :=
  match o with
  | OEnqueue d => dlist_enqueue d
  | OPushback d => dlist_pushback d
  | OPush d => dlist_push d
  | OPop => (dlist_pop ;;; ret tt)
  | ODequeue => (dlist_dequeue ;;; ret tt)
  | ORemove d => dlist_remove d
  end.

(** The caller's contract: an inserted node is an allocated node that is
    not currently linked in the list; a removed node is a member. *)
Definition op_allowed (s : state) (o : op) : Prop :=
  match o with
  | OEnqueue d | OPushback d | OPush d =>
      is_Some (heap s !! d) /\ d ∉ members s
  | OPop | ODequeue => True
  | ORemove d => d ∈ members s
  end.

(** The handle right after [dlist_init], over memory [h]. *)
Definition init_state (h : gmap Z dlist_node_t) : state :=
  mk_state h (mk_root NULL NULL).

(** Memory: every allocated node lives at a non-null 64-bit address. *)
Definition valid_addr (a : Z) : Prop := NULL < a < addr_mod.

Definition heap_wf (h : gmap Z dlist_node_t) : Prop :=
  forall a n, h !! a = Some n -> valid_addr a.

(** States reachable from [init] through the public operations. *)
Inductive reachable : state -> Prop :=
| reach_init h : heap_wf h -> reachable (init_state h)
| reach_step s o s' :
    reachable s -> op_allowed s o -> exec o s = Ok tt s' -> reachable s'.

(** ** The list shape

    [seg h p l nx]: the nodes [l] are linked in order by [next] and [prev],
    the first one's [prev] is [p] and the last one's [next] is [nx]. *)
Definition hd_or (d : Z) (l : list Z) : Z :=
  match l with [] => d | a :: _ => a end.

Fixpoint last_or (d : Z) (l : list Z) : Z :=
  match l with [] => d | a :: l' => last_or a l' end.

Fixpoint seg (h : gmap Z dlist_node_t) (p : Z) (l : list Z) (nx : Z) : Prop :=
  match l with
  | [] => True
  | a :: l' => h !! a = Some (mk_node (hd_or nx l') p) /\ seg h a l' nx
  end.

(** The handle [r] over memory [h] holds exactly the nodes [l]. *)
Definition repr (h : gmap Z dlist_node_t) (r : dlist_t) (l : list Z) : Prop :=
  seg h NULL l NULL /\ NoDup l /\ (NULL ∉ l) /\
  head r = hd_or NULL l /\ tail r = last_or NULL l.

(** ** Reference behaviour of a fold over a sequence of records

    [fold_list] applies the reducer to the records in order and stops after
    the first call that sets the termination flag; it returns the final
    accumulator and the records passed to the reducer.  [steps] lists what
    the reducer returns at each record when every record is visited. *)
Section FoldSpec.
Variable A : Type.
Variable func : Z -> A -> A * bool.

Fixpoint fold_list (recs : list Z) (acc : A) : A * list Z :=
  match recs with
  | [] => (acc, [])
  | r :: rs =>
      let (acc', terminate) := func r acc in
      if terminate then (acc', [r]) else
      let rt := fold_list rs acc' in (fst rt, r :: snd rt)
  end.

Fixpoint steps (recs : list Z) (acc : A) : list (A * bool) :=
  match recs with
  | [] => []
  | r :: rs => let (acc', terminate) := func r acc in (acc', terminate) :: steps rs acc'
  end.

(** The accumulator after visiting all of [recs] without stopping. *)
Definition final_acc (recs : list Z) (acc : A) : A :=
  match last (steps recs acc) with Some (a, _) => a | None => acc end.

End FoldSpec.

Arguments fold_list {A} func recs acc.
Arguments steps {A} func recs acc.
Arguments final_acc {A} func recs acc.

(** ** Sequences of operations *)

Fixpoint pushback_all (ds : list Z) : M unit :=
  match ds with [] => ret tt | d :: ds' => dlist_pushback d ;;; pushback_all ds' end.

Fixpoint enqueue_all (ds : list Z) : M unit :=
  match ds with [] => ret tt | d :: ds' => dlist_enqueue d ;;; enqueue_all ds' end.

Fixpoint dequeue_n (n : nat) : M (list Z) :=
  match n with
  | O => ret []
  | S n' => let! d := dlist_dequeue in let! ds := dequeue_n n' in ret (d :: ds)
  end.

Fixpoint pop_n (n : nat) : M (list Z) :=
  match n with
  | O => ret []
  | S n' => let! d := dlist_pop in let! ds := pop_n n' in ret (d :: ds)
  end.

(** ** The test driver's record type (dlist_unittest.c)

    [typedef struct { dlist_node_t list_data; int data; } mynode_t]: the
    link is the first field, so [OFFSET(mynode_t, list_data)] is 0, and a
    record takes 24 bytes.  The records of a scenario are placed one after
    the other from address 4096; [mynode_data] holds their [data] fields. *)
Definition mynode_off : Z := 0.

Definition rec_addr (i : Z) : Z := 4096 + 24 * i.

(** Memory holding the link fields of records [1..n] (contents not yet
    initialised). *)
Definition scen_heap (n : nat) : gmap Z dlist_node_t :=
  list_to_map (map (fun i => (field_addr mynode_off (rec_addr i), mk_node 0 0)) (seqZ 1 (Z.of_nat n))).

(** Record [i] holds the value [i]. *)
Definition mynode_data (n : nat) : gmap Z Z :=
  list_to_map (map (fun i => (rec_addr i, i)) (seqZ 1 (Z.of_nat n))).

Definition mynode_pushback_all (rs : list Z) : M unit :=
  foldr (fun r m => dlist_type_pushback mynode_off r ;;; m) (ret tt) rs.

(** Concrete scenario B of the spec: [init]; [pushback] of the records
    valued 1..20; [pop]; [dequeue]; then read [head], [tail] and the length
    of the list, reporting the values of the records returned. *)
Definition scenario_B : M (option Z * option Z * option Z * option Z * nat) :=
  dlist_type_init ;;;
  mynode_pushback_all (map rec_addr (seqZ 1 20)) ;;;
  let! p := dlist_type_pop mynode_off in
  let! q := dlist_type_dequeue mynode_off in
  let! hd := dlist_type_head mynode_off in
  let! tl := dlist_type_tail mynode_off in
  let! n := (fun s => Ok (length (members s)) s) in
  let vals := mynode_data 20 in
  ret (vals !! p, vals !! q, vals !! hd, vals !! tl, n).

(** The four round trips of N insertions followed by N removals. *)
Definition pushback_then_dequeue (ns : list Z) : M (list Z) :=
  dlist_init ;;; pushback_all ns ;;; dequeue_n (length ns).

Definition enqueue_then_pop (ns : list Z) : M (list Z) :=
  dlist_init ;;; enqueue_all ns ;;; pop_n (length ns).

Definition pushback_then_pop (ns : list Z) : M (list Z) :=
  dlist_init ;;; pushback_all ns ;;; pop_n (length ns).

Definition enqueue_then_dequeue (ns : list Z) : M (list Z) :=
  dlist_init ;;; enqueue_all ns ;;; dequeue_n (length ns).

(** A [dlist_node_t] holds two 64-bit pointers and is 8-byte aligned. *)
Definition node_aligned (h : gmap Z dlist_node_t) : Prop :=
  forall a n, h !! a = Some n -> a mod 8 = 0.

(** The state after one public operation (unchanged if it fails). *)
Definition after (o : op) (s : state) : state :=
  match exec o s with Ok _ s' => s' | _ => s end.

(** The link node of record [i] of a scenario. *)
Definition node_at (i : Z) : Z := field_addr mynode_off (rec_addr i).

(** [init]; [pushback] of records 1, 2, 3, over the memory of four records. *)
Definition state3 : state :=
  after (OPushback (node_at 3)) (after (OPushback (node_at 2))
    (after (OPushback (node_at 1)) (init_state (scen_heap 4)))).

(** A reducer on record pointers that counts its calls and asks to stop at
    call [k], and one that never stops and collects the records. *)
Definition stop_at (k : Z) (r : Z) (acc : Z) : Z * bool := (acc + 1, acc + 1 =? k).

Definition collect (r : Z) (acc : list Z) : list Z * bool := (acc ++ [r], false).

(** ** Shape lemmas *)

Lemma nonnull_true p : p <> NULL -> nonnull p = true.
Proof. intros Hp. unfold nonnull. destruct (Z.eqb_spec p NULL); [congruence|done]. Qed.

Lemma nonnull_NULL : nonnull NULL = false.
Proof. reflexivity. Qed.

Lemma hd_or_app d l1 l2 : hd_or d (l1 ++ l2) = hd_or (hd_or d l2) l1.
Proof. destruct l1; reflexivity. Qed.

Lemma last_or_app d l1 l2 : last_or d (l1 ++ l2) = last_or (last_or d l1) l2.
Proof. revert d; induction l1 as [|a l1 IH]; intros d; simpl; auto. Qed.

Lemma last_or_snoc d l b : last_or d (l ++ [b]) = b.
Proof. rewrite last_or_app. reflexivity. Qed.

Lemma seg_app h p l1 l2 nx :
  seg h p (l1 ++ l2) nx <-> seg h p l1 (hd_or nx l2) /\ seg h (last_or p l1) l2 nx.
Proof.
  revert p; induction l1 as [|a l1 IH]; intros p; simpl.
  - tauto.
  - rewrite IH, hd_or_app. tauto.
Qed.

Lemma seg_insert_notin h p l nx x v :
  x ∉ l -> seg (<[x := v]> h) p l nx <-> seg h p l nx.
Proof.
  revert p; induction l as [|a l IH]; intros p Hx; simpl; [tauto|].
  apply not_elem_of_cons in Hx as [Hxa Hx].
  rewrite lookup_insert_ne by congruence. rewrite IH by done. tauto.
Qed.

Lemma seg_lookup h p l nx a :
  seg h p l nx -> a ∈ l -> is_Some (h !! a).
Proof.
  revert p; induction l as [|b l IH]; intros p Hs Ha; simpl in *.
  - by apply not_elem_of_nil in Ha.
  - destruct Hs as [Hb Hs]. apply elem_of_cons in Ha as [->|Ha]; eauto.
Qed.

Lemma last_or_in d l : l <> [] -> last_or d l ∈ l.
Proof.
  revert d; induction l as [|a l IH]; intros d Hl; [done|].
  destruct l as [|b l]; simpl; [set_solver|].
  apply elem_of_cons; right. apply (IH 0). done.
Qed.

Lemma hd_or_in d l : l <> [] -> hd_or d l ∈ l.
Proof. destruct l; simpl; [done|set_solver]. Qed.

Lemma walk_seg fuel h p l :
  seg h p l NULL -> NULL ∉ l -> (length l <= fuel)%nat ->
  walk fuel h (hd_or NULL l) = l.
Proof.
  revert p fuel; induction l as [|a l IH]; intros p fuel Hs Hn Hlen; simpl in *.
  - destruct fuel; reflexivity.
  - destruct Hs as [Ha Hs]. apply not_elem_of_cons in Hn as [Hna Hn].
    destruct fuel as [|fuel]; [lia|].
    simpl. rewrite nonnull_true by congruence. simpl. rewrite Ha. simpl. f_equal. apply (IH a); auto. lia.
Qed.

Lemma repr_length h r l : repr h r l -> (length l <= size h)%nat.
Proof.
  intros (Hs & Hnd & _ & _ & _).
  rewrite <- (size_list_to_set (C := gset Z) l Hnd), <- size_dom.
  apply subseteq_size. intros x Hx. apply elem_of_list_to_set in Hx.
  apply elem_of_dom. eapply seg_lookup; eauto.
Qed.

Lemma members_repr h r l : repr h r l -> members (mk_state h r) = l.
Proof.
  intros Hr. pose proof (repr_length _ _ _ Hr) as Hlen.
  destruct Hr as (Hs & Hnd & Hn & Hh & Ht).
  unfold members; simpl. rewrite Hh. eapply walk_seg; eauto.
Qed.

Lemma seg_mid h p l1 x l2 nx :
  seg h p (l1 ++ x :: l2) nx <->
  seg h p l1 x /\ h !! x = Some (mk_node (hd_or nx l2) (last_or p l1)) /\ seg h x l2 nx.
Proof. rewrite seg_app. simpl. tauto. Qed.

Lemma seg_snoc h p l x nx :
  seg h p (l ++ [x]) nx <-> seg h p l x /\ h !! x = Some (mk_node nx (last_or p l)).
Proof. rewrite seg_mid. simpl. tauto. Qed.

Lemma NoDup_snoc (l : list Z) x : x ∉ l -> NoDup l -> NoDup (l ++ [x]).
Proof.
  intros Hx Hl. apply NoDup_app. split_and!; [done| |by constructor; [set_solver|constructor]].
  intros y Hy. set_solver.
Qed.

Lemma NoDup_mid (l1 l2 : list Z) x :
  NoDup (l1 ++ x :: l2) -> (x ∉ l1) /\ (x ∉ l2) /\ NoDup (l1 ++ l2).
Proof.
  intros Hnd. apply NoDup_app in Hnd as (H1 & H12 & H2).
  apply NoDup_cons in H2 as [Hx2 H2]. split_and!.
  - intros Hx. apply (H12 x Hx). set_solver.
  - done.
  - apply NoDup_app. split_and!; [done| |done]. intros y Hy. specialize (H12 y Hy). set_solver.
Qed.

(** ** Running the operations on a well-formed list *)

Ltac unfold_m :=
  unfold bind, ret, assert, panic, get_head, get_tail, set_head, set_tail,
    get_next, get_prev, set_next, set_prev; simpl.

Ltac close_repr :=
  match goal with
  | |- _ !! _ = _ => by simplify_map_eq
  | |- seg _ _ _ _ => by rewrite !seg_insert_notin by set_solver
  | |- NoDup [] => by apply NoDup_nil_2
  | |- NoDup (_ :: _) => by constructor; [set_solver|]
  | |- NoDup _ => done
  | |- _ ∉ _ => set_solver
  | |- _ = _ => rewrite ?hd_or_app, ?last_or_app; reflexivity
  | |- True => exact I
  | |- forall _, _ => intros; by simplify_map_eq
  end.

Lemma enqueue_run h r l a n0 :
  repr h r l -> h !! a = Some n0 -> a ∉ l -> a <> NULL ->
  exists s', dlist_enqueue a (mk_state h r) = Ok tt s' /\
             repr (heap s') (root s') (a :: l).
Proof.
  intros (Hs & Hnd & Hn & Hh & Ht) Ha Hal Ha0. destruct r as [hd tl]; simpl in *; subst.
  unfold dlist_enqueue. unfold_m. rewrite Ha. simpl. rewrite lookup_insert_eq. simpl.
  destruct l as [|b l']; simpl.
  - eexists; split; [reflexivity|].
    unfold repr; simpl; repeat split; try close_repr.
  - destruct Hs as [Hb Hs]. apply not_elem_of_cons in Hal as [Hab Hal].
    apply not_elem_of_cons in Hn as [Hb0 Hn].
    rewrite nonnull_true by congruence. simplify_map_eq. rewrite ?nonnull_NULL. simpl.
    pose proof Hnd as Hnd'. apply NoDup_cons in Hnd' as [Hbl _].
    eexists; split; [reflexivity|].
    unfold repr; simpl; repeat split; close_repr.
Qed.

Lemma pushback_run h r l a n0 :
  repr h r l -> h !! a = Some n0 -> a ∉ l -> a <> NULL ->
  exists s', dlist_pushback a (mk_state h r) = Ok tt s' /\
             repr (heap s') (root s') (l ++ [a]).
Proof.
  intros (Hs & Hnd & Hn & Hh & Ht) Ha Hal Ha0. destruct r as [hd tl]; simpl in *; subst.
  unfold dlist_pushback. unfold_m. rewrite Ha. simpl. rewrite lookup_insert_eq. simpl.
  induction l as [|b l' _] using rev_ind; simpl.
  - eexists; split; [reflexivity|].
    unfold repr; simpl; repeat split; close_repr.
  - rewrite last_or_snoc in *. apply seg_snoc in Hs as [Hs Hb].
    pose proof Hnd as Hnd'. apply (NoDup_mid l' []) in Hnd' as (Hbl & _ & _).
    assert (Hab : a <> b) by set_solver.
    assert (Hal' : a ∉ l') by set_solver.
    assert (Hb0 : b <> NULL) by set_solver.
    rewrite nonnull_true by congruence. simplify_map_eq. rewrite ?nonnull_NULL. simpl.
    eexists; split; [reflexivity|].
    unfold repr; simpl. rewrite !seg_snoc, !last_or_snoc, !hd_or_app. simpl.
    split_and!; try close_repr.
    apply NoDup_snoc; [set_solver|done].
Qed.

Lemma pop_run h r a l :
  repr h r (a :: l) ->
  exists s', dlist_pop (mk_state h r) = Ok a s' /\
             repr (heap s') (root s') l /\
             (forall x, x <> hd_or NULL l -> heap s' !! x = h !! x).
Proof.
  intros (Hs & Hnd & Hn & Hh & Ht). destruct r as [hd tl]; simpl in *; subst.
  destruct Hs as [Ha Hs]. apply NoDup_cons in Hnd as [Hal Hnd].
  apply not_elem_of_cons in Hn as [Ha0 Hn].
  unfold dlist_pop. unfold_m. rewrite nonnull_true by congruence. simpl.
  rewrite Ha. simpl.
  destruct l as [|b l']; simpl.
  - rewrite Z.eqb_refl. eexists; split; [reflexivity|].
    unfold repr; simpl; split_and!; try close_repr.
  - assert (Hlast : last_or b l' <> a).
    { intros He. apply Hal. rewrite <- He. apply (last_or_in 0 (b :: l')). done. }
    apply Z.eqb_neq in Hlast. rewrite Hlast. simpl.
    destruct Hs as [Hb Hs]. rewrite Hb. simpl.
    pose proof Hnd as Hnd'. apply NoDup_cons in Hnd' as [Hbl _].
    eexists; split; [reflexivity|].
    unfold repr; simpl; split_and!; close_repr.
Qed.

Lemma dequeue_run h r l a :
  repr h r (l ++ [a]) ->
  exists s', dlist_dequeue (mk_state h r) = Ok a s' /\
             repr (heap s') (root s') l /\
             (forall x, x <> last_or NULL l -> heap s' !! x = h !! x).
Proof.
  intros (Hs & Hnd & Hn & Hh & Ht). destruct r as [hd tl]; simpl in *; subst.
  rewrite last_or_snoc. apply seg_snoc in Hs as [Hs Ha].
  pose proof Hnd as Hnd'. apply (NoDup_mid l []) in Hnd' as (Hal & _ & Hnd0).
  rewrite app_nil_r in Hnd0. clear Hnd.
  assert (Ha0 : a <> NULL) by set_solver.
  unfold dlist_dequeue. unfold_m. rewrite nonnull_true by congruence. simpl.
  rewrite Ha. simpl.
  induction l as [|c l' _] using rev_ind; simpl.
  - rewrite Z.eqb_refl. eexists; split; [reflexivity|].
    unfold repr; simpl; split_and!; try close_repr.
  - rewrite !hd_or_app. simpl.
    assert (Hhd : hd_or c l' <> a).
    { intros He. apply Hal. rewrite <- He. destruct l'; simpl; set_solver. }
    apply Z.eqb_neq in Hhd. rewrite Hhd. simpl.
    rewrite last_or_snoc in *. apply seg_snoc in Hs as [Hs Hc]. rewrite Hc. simpl.
    pose proof Hnd0 as Hnd'. apply (NoDup_mid l' []) in Hnd' as (Hcl & _ & _).
    eexists; split; [reflexivity|].
    unfold repr; simpl. rewrite !seg_snoc, !last_or_snoc, !hd_or_app. simpl.
    split_and!; close_repr.
Qed.

Ltac crunch :=
  repeat progress (simpl; rewrite ?Z.eqb_refl, ?last_or_snoc, ?hd_or_app; simplify_map_eq).

Lemma remove_run h r l1 d l2 :
  repr h r (l1 ++ d :: l2) ->
  exists s', dlist_remove d (mk_state h r) = Ok tt s' /\
             repr (heap s') (root s') (l1 ++ l2) /\
             (forall x, x <> last_or NULL l1 -> x <> hd_or NULL l2 ->
                        heap s' !! x = h !! x).
Proof.
  intros (Hs & Hnd & Hn & Hh & Ht). destruct r as [hd tl]; simpl in *; subst.
  apply seg_mid in Hs as (Hs1 & Hd & Hs2).
  pose proof Hnd as Hnd'. apply NoDup_mid in Hnd' as (Hd1 & Hd2 & Hnd12). clear Hnd.
  assert (Hd0 : d <> NULL) by set_solver.
  assert (Hn12 : NULL ∉ l1 ++ l2) by set_solver. clear Hn.
  unfold dlist_remove. unfold_m. rewrite Hd. simpl.
  induction l1 as [|p l1' _] using rev_ind; destruct l2 as [|q l2']; simpl in *.
  - crunch. eexists; split; [reflexivity|].
    unfold repr; simpl; split_and!; close_repr.
  - destruct Hs2 as [Hq Hs2].
    assert (Hq0 : q <> NULL) by set_solver.
    assert (Hqd : q <> d) by set_solver.
    pose proof Hnd12 as Hq2. apply NoDup_cons in Hq2 as [Hq2 _].
    crunch. rewrite (nonnull_true q) by done. crunch.
    eexists; split; [reflexivity|].
    unfold repr; simpl; split_and!; close_repr.
  - apply seg_snoc in Hs1 as [Hs1 Hp]. rewrite last_or_snoc in Hd.
    assert (Hp0 : p <> NULL) by set_solver.
    assert (Hpd : p <> d) by set_solver.
    rewrite app_nil_r in *.
    pose proof Hnd12 as Hp1. apply (NoDup_mid l1' []) in Hp1 as [Hp1 _].
    crunch. rewrite (nonnull_true p) by done. crunch.
    eexists; split; [reflexivity|].
    unfold repr; simpl. rewrite ?seg_snoc, ?last_or_snoc. simpl.
    split_and!; close_repr.
  - apply seg_snoc in Hs1 as [Hs1 Hp]. destruct Hs2 as [Hq Hs2].
    rewrite last_or_snoc in Hd.
    assert (Hp0 : p <> NULL) by set_solver.
    assert (Hq0 : q <> NULL) by set_solver.
    assert (Hpd : p <> d) by set_solver.
    assert (Hqd : q <> d) by set_solver.
    pose proof Hnd12 as Hnd'. apply NoDup_mid in Hnd' as (Hq1 & Hq2 & Hnd').
    apply NoDup_app in Hnd' as (Hnd1 & Hnd1' & _).
    assert (Hp2 : p ∉ l2') by (apply Hnd1'; set_solver).
    pose proof Hnd1 as Hp1. apply (NoDup_mid l1' []) in Hp1 as [Hp1 _].
    assert (Hpq : p <> q) by set_solver.
    crunch. rewrite (nonnull_true p) by done. crunch.
    rewrite (nonnull_true q) by done. crunch.
    eexists; split; [reflexivity|].
    unfold repr; simpl. rewrite ?seg_mid, ?seg_snoc, ?last_or_snoc. simpl.
    split_and!; close_repr.
Qed.

(** ** Properties of memory kept by the operations

    The operations only write nodes that are already allocated, so every
    property of the memory that survives such a write survives them. *)

Definition insert_closed (P : gmap Z dlist_node_t -> Prop) : Prop :=
  forall h p n v, P h -> h !! p = Some n -> P (<[p := v]> h).

Section Keeps.
Variable P : gmap Z dlist_node_t -> Prop.
Hypothesis HP : insert_closed P.

Definition keeps {A} (m : M A) : Prop :=
  forall s a s', P (heap s) -> m s = Ok a s' -> P (heap s').

Lemma keeps_bind {A B} (m : M A) (k : A -> M B) :
  keeps m -> (forall a, keeps (k a)) -> keeps (bind m k).
Proof.
  intros Hm Hk s b s' Hs Hrun. unfold bind in Hrun.
  destruct (m s) as [a s1| | |] eqn:E; try discriminate.
  eapply Hk; [|exact Hrun]. eapply Hm; eauto.
Qed.

Lemma keeps_if {A} (b : bool) (m1 m2 : M A) :
  keeps m1 -> keeps m2 -> keeps (if b then m1 else m2).
Proof. destruct b; auto. Qed.

Lemma keeps_read {A} (f : state -> A) : keeps (fun s => Ok (f s) s).
Proof. intros s b s' Hs H. injection H as _ <-. exact Hs. Qed.

Lemma keeps_ret {A} (a : A) : keeps (ret a).
Proof. apply keeps_read. Qed.

Lemma keeps_assert b : keeps (assert b).
Proof. intros s a s' Hs H. unfold assert in H. destruct b; [|discriminate]. injection H as _ <-. exact Hs. Qed.

Lemma keeps_get_next p : keeps (get_next p).
Proof.
  intros s a s' Hs H. unfold get_next in H. destruct (heap s !! p); [|discriminate].
  injection H as _ <-. exact Hs.
Qed.

Lemma keeps_get_prev p : keeps (get_prev p).
Proof.
  intros s a s' Hs H. unfold get_prev in H. destruct (heap s !! p); [|discriminate].
  injection H as _ <-. exact Hs.
Qed.

Lemma keeps_set_head p : keeps (set_head p).
Proof. intros s a s' Hs H. unfold set_head in H. injection H as <- <-. exact Hs. Qed.

Lemma keeps_set_tail p : keeps (set_tail p).
Proof. intros s a s' Hs H. unfold set_tail in H. injection H as <- <-. exact Hs. Qed.

Lemma keeps_set_next p v : keeps (set_next p v).
Proof.
  intros s a s' Hs H. unfold set_next in H.
  destruct (heap s !! p) eqn:E; [|discriminate].
  injection H as <- <-. simpl. eapply HP; eauto.
Qed.

Lemma keeps_set_prev p v : keeps (set_prev p v).
Proof.
  intros s a s' Hs H. unfold set_prev in H.
  destruct (heap s !! p) eqn:E; [|discriminate].
  injection H as <- <-. simpl. eapply HP; eauto.
Qed.

#[local] Hint Resolve keeps_ret keeps_assert keeps_get_next keeps_get_prev
  keeps_set_head keeps_set_tail keeps_set_next keeps_set_prev : core.

Ltac solve_keeps :=
  repeat first
    [ apply keeps_bind; [| intro]
    | apply keeps_if
    | apply keeps_read
    | solve [eauto] ].

Lemma keeps_enqueue d : keeps (dlist_enqueue d).
Proof. unfold dlist_enqueue, get_head, get_tail. solve_keeps. Qed.

Lemma keeps_pushback d : keeps (dlist_pushback d).
Proof. unfold dlist_pushback, get_head, get_tail. solve_keeps. Qed.

Lemma keeps_exec o : keeps (exec o).
Proof.
  destruct o; simpl;
    unfold dlist_enqueue, dlist_pushback, dlist_push, dlist_pop, dlist_dequeue,
      dlist_remove, get_head, get_tail; cbv zeta; solve_keeps.
Qed.

End Keeps.

Lemma heap_wf_insert_closed : insert_closed heap_wf.
Proof.
  intros h p n v Hw Hp a m Ha. destruct (decide (a = p)) as [->|Hne].
  - eapply Hw; eauto.
  - rewrite lookup_insert_ne in Ha by congruence. eapply Hw; eauto.
Qed.

(** The nodes allocated in [h0] stay allocated. *)
Definition allocated_from (h0 h : gmap Z dlist_node_t) : Prop :=
  forall a, is_Some (h0 !! a) -> is_Some (h !! a).

Lemma allocated_from_insert_closed h0 : insert_closed (allocated_from h0).
Proof.
  intros h p n v Hh Hp a Ha. destruct (decide (a = p)) as [->|Hne].
  - rewrite lookup_insert_eq. eauto.
  - rewrite lookup_insert_ne by congruence. auto.
Qed.

(** ** The invariant of reachable states *)

Lemma repr_empty h : repr h (mk_root NULL NULL) [].
Proof. unfold repr; simpl; split_and!; close_repr. Qed.

Lemma pop_empty h r :
  head r = NULL -> dlist_pop (mk_state h r) = Ok NULL (mk_state h r).
Proof. intros Hh. unfold dlist_pop, bind, get_head, ret. simpl. rewrite Hh. reflexivity. Qed.

Lemma dequeue_empty h r :
  tail r = NULL -> dlist_dequeue (mk_state h r) = Ok NULL (mk_state h r).
Proof. intros Ht. unfold dlist_dequeue, bind, get_tail, ret. simpl. rewrite Ht. reflexivity. Qed.

Lemma reachable_inv s :
  reachable s -> heap_wf (heap s) /\ exists l, repr (heap s) (root s) l.
Proof.
  induction 1 as [h Hw|s o s' Hr [Hw [l Hl]] Hallow Hexec].
  - split; [done|]. exists []. apply repr_empty.
  - split; [eapply keeps_exec; eauto using heap_wf_insert_closed|].
    destruct s as [h r]; simpl in *.
    pose proof (members_repr _ _ _ Hl) as Hm.
    unfold op_allowed in Hallow. rewrite Hm in Hallow.
    destruct o as [d|d|d| | |d]; simpl in Hexec.
    + destruct Hallow as [[n0 Hn0] Hd]. pose proof (Hw d n0 Hn0) as Hv.
      destruct (enqueue_run h r l d n0) as (s'' & Hrun & Hrepr); auto.
      { unfold valid_addr in Hv. lia. }
      rewrite Hrun in Hexec. injection Hexec as <-. eauto.
    + destruct Hallow as [[n0 Hn0] Hd]. pose proof (Hw d n0 Hn0) as Hv.
      destruct (pushback_run h r l d n0) as (s'' & Hrun & Hrepr); auto.
      { unfold valid_addr in Hv. lia. }
      rewrite Hrun in Hexec. injection Hexec as <-. eauto.
    + destruct Hallow as [[n0 Hn0] Hd]. pose proof (Hw d n0 Hn0) as Hv.
      destruct (enqueue_run h r l d n0) as (s'' & Hrun & Hrepr); auto.
      { unfold valid_addr in Hv. lia. }
      unfold dlist_push in Hexec.
      rewrite Hrun in Hexec. injection Hexec as <-. eauto.
    + destruct l as [|a l'].
      * pose proof Hl as (_ & _ & _ & Hh & _).
        unfold bind in Hexec. rewrite pop_empty in Hexec by done.
        injection Hexec as <-. eauto.
      * destruct (pop_run h r a l') as (s'' & Hrun & Hrepr & _); auto.
        unfold bind in Hexec. rewrite Hrun in Hexec. injection Hexec as <-. eauto.
    + destruct l as [|a l' _] using rev_ind.
      * pose proof Hl as (_ & _ & _ & _ & Ht).
        unfold bind in Hexec. rewrite dequeue_empty in Hexec by done.
        injection Hexec as <-. eauto.
      * destruct (dequeue_run h r l' a) as (s'' & Hrun & Hrepr & _); auto.
        unfold bind in Hexec. rewrite Hrun in Hexec. injection Hexec as <-. eauto.
    + apply list_elem_of_split in Hallow as (l1 & l2 & ->).
      destruct (remove_run h r l1 d l2) as (s'' & Hrun & Hrepr & _); auto.
      rewrite Hrun in Hexec. injection Hexec as <-. eauto.
Qed.

Lemma reachable_repr s :
  reachable s -> repr (heap s) (root s) (members s).
Proof.
  intros Hr. destruct (reachable_inv s Hr) as [_ [l Hl]].
  destruct s as [h r]. rewrite (members_repr h r l Hl). exact Hl.
Qed.

(** ** The loops of [dlist_check] and of the folds on a well-formed list *)

Lemma check_loop_seg h r p l fuel :
  seg h p l NULL -> NULL ∉ l -> (length l <= fuel)%nat ->
  (p = NULL \/ exists q, h !! p = Some (mk_node (hd_or NULL l) q)) ->
  check_loop fuel (hd_or NULL l) p (mk_state h r) = Ok (last_or p l) (mk_state h r).
Proof.
  revert p fuel; induction l as [|a l IH]; intros p fuel Hs Hn Hlen Hp.
  - destruct fuel; reflexivity.
  - simpl in Hs. destruct Hs as [Ha Hs]. apply not_elem_of_cons in Hn as [Ha0 Hn].
    destruct fuel as [|fuel]; simpl in Hlen; [lia|].
    simpl. rewrite nonnull_true by congruence. simpl.
    destruct (decide (p = NULL)) as [->|Hp0].
    + rewrite nonnull_NULL. unfold_m. rewrite Ha. simpl.
      rewrite Ha. simpl. apply IH; auto; [lia|]. right. eauto.
    + destruct Hp as [Hp|[q Hq]]; [done|].
      rewrite nonnull_true by done. unfold_m. rewrite Hq. simpl. rewrite Z.eqb_refl. simpl.
      rewrite Ha. simpl. rewrite Z.eqb_refl. simpl. rewrite Ha. simpl.
      apply IH; auto; [lia|]. right. eauto.
Qed.

Section FoldLoops.
Context {A : Type} (off : Z) (func : Z -> A -> A * bool).

Lemma foldr_loop_seg h r p l fuel (acc : A) :
  seg h p l NULL -> NULL ∉ l -> (length l <= fuel)%nat ->
  fold_loop off func get_next fuel (hd_or NULL l) acc (mk_state h r) =
  Ok (fold_list func (map (GET_CONTAINER off) l) acc) (mk_state h r).
Proof.
  revert p fuel acc; induction l as [|a l IH]; intros p fuel acc Hs Hn Hlen.
  - destruct fuel; reflexivity.
  - simpl in Hs. destruct Hs as [Ha Hs]. apply not_elem_of_cons in Hn as [Ha0 Hn].
    destruct fuel as [|fuel]; simpl in Hlen; [lia|].
    simpl. rewrite nonnull_true by congruence.
    destruct (func (GET_CONTAINER off a) acc) as [acc' t]. destruct t; [reflexivity|].
    unfold bind, get_next. simpl. rewrite Ha. simpl.
    rewrite (IH a); auto. lia.
Qed.

Lemma foldl_loop_seg h r l nx fuel (acc : A) :
  seg h NULL l nx -> NULL ∉ l -> (length l <= fuel)%nat ->
  fold_loop off func get_prev fuel (last_or NULL l) acc (mk_state h r) =
  Ok (fold_list func (map (GET_CONTAINER off) (rev l)) acc) (mk_state h r).
Proof.
  revert nx fuel acc; induction l as [|a l IH] using rev_ind; intros nx fuel acc Hs Hn Hlen.
  - destruct fuel; reflexivity.
  - apply seg_snoc in Hs as [Hs Ha]. rewrite last_or_snoc, rev_unit.
    assert (Ha0 : a <> NULL) by set_solver.
    assert (Hn' : NULL ∉ l) by set_solver.
    rewrite length_app in Hlen. simpl in Hlen.
    destruct fuel as [|fuel]; [lia|].
    simpl. rewrite nonnull_true by congruence.
    destruct (func (GET_CONTAINER off a) acc) as [acc' t]. destruct t; [reflexivity|].
    unfold bind, get_prev. simpl. rewrite Ha. simpl.
    rewrite (IH a); auto. lia.
Qed.

Lemma fold_list_stop recs (acc : A) k a :
  (forall i, (i < k)%nat -> snd <$> steps func recs acc !! i = Some false) ->
  steps func recs acc !! k = Some (a, true) ->
  fold_list func recs acc = (a, take (S k) recs).
Proof.
  revert acc k; induction recs as [|r rs IH]; intros acc k Hbefore Hk; [done|].
  simpl in *. destruct (func r acc) as [acc' t] eqn:E.
  destruct k as [|k]; simpl in Hk.
  - injection Hk as -> ->. reflexivity.
  - pose proof (Hbefore 0%nat ltac:(lia)) as H0. simpl in H0. injection H0 as ->.
    rewrite (IH acc' k); [reflexivity| |done].
    intros i Hi. apply (Hbefore (S i)). lia.
Qed.

Lemma fold_list_all recs (acc : A) :
  (forall i x, steps func recs acc !! i = Some x -> snd x = false) ->
  fold_list func recs acc = (final_acc func recs acc, recs).
Proof.
  revert acc; induction recs as [|r rs IH]; intros acc Hall; [done|].
  unfold final_acc in *. simpl in *. destruct (func r acc) as [acc' t] eqn:E.
  pose proof (Hall 0%nat (acc', t) eq_refl) as H0. simpl in H0. subst t.
  rewrite IH.
  - simpl. f_equal. destruct rs as [|r' rs']; [reflexivity|].
    simpl. destruct (func r' acc'). rewrite last_cons_cons.
    destruct (last _) as [[? ?]|] eqn:El; [reflexivity|].
    apply last_None in El. discriminate.
  - intros i x Hi. apply (Hall (S i)). exact Hi.
Qed.

End FoldLoops.

(** ** Sequences of insertions and removals *)

Lemma bind_ok {A B} (m : M A) (k : A -> M B) s a s' :
  m s = Ok a s' -> bind m k s = k a s'.
Proof. intros H. unfold bind. rewrite H. reflexivity. Qed.

Lemma pushback_all_run ns h r l :
  repr h r l -> NoDup ns -> (forall a, a ∈ ns -> is_Some (h !! a)) ->
  (forall a, a ∈ ns -> a ∉ l) -> NULL ∉ ns ->
  exists s', pushback_all ns (mk_state h r) = Ok tt s' /\ repr (heap s') (root s') (l ++ ns).
Proof.
  revert h r l; induction ns as [|d ns IH]; intros h r l Hl Hnd Hal Hnot Hn.
  - exists (mk_state h r). rewrite app_nil_r. split; [reflexivity|exact Hl].
  - apply NoDup_cons in Hnd as [Hd Hnd]. apply not_elem_of_cons in Hn as [Hd0 Hn].
    destruct (Hal d ltac:(set_solver)) as [n0 Hn0].
    destruct (pushback_run h r l d n0) as ([h1 r1] & Hrun & Hrepr); auto.
    { apply Hnot. set_solver. }
    destruct (IH h1 r1 (l ++ [d])) as (s2 & Hrun2 & Hrepr2); auto.
    + intros a Ha.
      assert (Hk : allocated_from h h1).
      { refine (keeps_pushback _ (allocated_from_insert_closed h) d
          (mk_state h r) tt (mk_state h1 r1) _ Hrun). intros x Hx. exact Hx. }
      apply Hk, Hal. set_solver.
    + intros a Ha. apply not_elem_of_app. split; [apply Hnot; set_solver|set_solver].
    + exists s2. simpl. rewrite (bind_ok _ _ _ _ _ Hrun). split; [exact Hrun2|].
      rewrite <- app_assoc in Hrepr2. exact Hrepr2.
Qed.

Lemma enqueue_all_run ns h r l :
  repr h r l -> NoDup ns -> (forall a, a ∈ ns -> is_Some (h !! a)) ->
  (forall a, a ∈ ns -> a ∉ l) -> NULL ∉ ns ->
  exists s', enqueue_all ns (mk_state h r) = Ok tt s' /\ repr (heap s') (root s') (rev ns ++ l).
Proof.
  revert h r l; induction ns as [|d ns IH]; intros h r l Hl Hnd Hal Hnot Hn.
  - exists (mk_state h r). split; [reflexivity|exact Hl].
  - apply NoDup_cons in Hnd as [Hd Hnd]. apply not_elem_of_cons in Hn as [Hd0 Hn].
    destruct (Hal d ltac:(set_solver)) as [n0 Hn0].
    destruct (enqueue_run h r l d n0) as ([h1 r1] & Hrun & Hrepr); auto.
    { apply Hnot. set_solver. }
    destruct (IH h1 r1 (d :: l)) as (s2 & Hrun2 & Hrepr2); auto.
    + intros a Ha.
      assert (Hk : allocated_from h h1).
      { refine (keeps_enqueue _ (allocated_from_insert_closed h) d
          (mk_state h r) tt (mk_state h1 r1) _ Hrun). intros x Hx. exact Hx. }
      apply Hk, Hal. set_solver.
    + intros a Ha. apply not_elem_of_cons. split; [set_solver|apply Hnot; set_solver].
    + exists s2. simpl. rewrite (bind_ok _ _ _ _ _ Hrun). split; [exact Hrun2|].
      simpl. rewrite <- app_assoc. exact Hrepr2.
Qed.

Lemma dequeue_n_run l h r :
  repr h r l ->
  exists s', dequeue_n (length l) (mk_state h r) = Ok (rev l) s' /\ repr (heap s') (root s') [].
Proof.
  revert h r; induction l as [|a l IH] using rev_ind; intros h r Hl.
  - exists (mk_state h r). split; [reflexivity|exact Hl].
  - destruct (dequeue_run h r l a Hl) as ([h1 r1] & Hrun & Hrepr & _).
    destruct (IH h1 r1 Hrepr) as (s2 & Hrun2 & Hrepr2).
    exists s2. rewrite length_app, Nat.add_comm. simpl.
    rewrite (bind_ok _ _ _ _ _ Hrun). unfold bind at 1. rewrite Hrun2.
    rewrite rev_app_distr. split; [reflexivity|exact Hrepr2].
Qed.

Lemma pop_n_run l h r :
  repr h r l ->
  exists s', pop_n (length l) (mk_state h r) = Ok l s' /\ repr (heap s') (root s') [].
Proof.
  revert h r; induction l as [|a l IH]; intros h r Hl.
  - exists (mk_state h r). split; [reflexivity|exact Hl].
  - destruct (pop_run h r a l Hl) as ([h1 r1] & Hrun & Hrepr & _).
    destruct (IH h1 r1 Hrepr) as (s2 & Hrun2 & Hrepr2).
    exists s2. simpl.
    rewrite (bind_ok _ _ _ _ _ Hrun). unfold bind at 1. rewrite Hrun2.
    split; [reflexivity|exact Hrepr2].
Qed.

Lemma init_run h r : dlist_init (mk_state h r) = Ok tt (init_state h).
Proof. reflexivity. Qed.

(** ** Record pointers, folds and traversals on well-formed lists *)

Lemma GET_CONTAINER_inj off a b :
  valid_addr a -> valid_addr b -> GET_CONTAINER off a = GET_CONTAINER off b -> a = b.
Proof.
  unfold valid_addr, GET_CONTAINER, addr_mod, NULL. intros Ha Hb E.
  pose proof (Z.div_mod (a - off) (2^64) ltac:(lia)) as Da.
  pose proof (Z.div_mod (b - off) (2^64) ltac:(lia)) as Db.
  rewrite E in Da.
  remember ((a - off) / 2^64) as qa. remember ((b - off) / 2^64) as qb.
  change (2^64) with 18446744073709551616 in *.
  assert (qa = qb) by lia. lia.
Qed.

Lemma NoDup_map_GET_CONTAINER off l :
  Forall valid_addr l -> NoDup l -> NoDup (map (GET_CONTAINER off) l).
Proof.
  induction l as [|a l IH]; intros Hv Hnd; simpl; [constructor|].
  apply Forall_cons in Hv as [Ha Hv]. apply NoDup_cons in Hnd as [Hal Hnd].
  constructor; [|auto].
  intros Hin. apply list_elem_of_In, in_map_iff in Hin as (b & Eb & Hb).
  apply list_elem_of_In in Hb. apply Hal.
  rewrite (GET_CONTAINER_inj off a b); auto. rewrite Forall_forall in Hv. auto.
Qed.

Lemma reachable_valid s :
  reachable s -> Forall valid_addr (members s).
Proof.
  intros Hr. destruct (reachable_inv s Hr) as [Hw _].
  pose proof (reachable_repr s Hr) as (Hs & _).
  apply Forall_forall. intros a Ha.
  destruct (seg_lookup _ _ _ _ a Hs Ha) as [n Hn]. eapply Hw; eauto.
Qed.

Lemma steps_length {A} (func : Z -> A -> A * bool) recs acc :
  length (steps func recs acc) = length recs.
Proof.
  revert acc; induction recs as [|r rs IH]; intros acc; [done|].
  simpl. destruct (func r acc). simpl. rewrite IH. done.
Qed.

Lemma foldr_repr {A} off (func : Z -> A -> A * bool) h r l acc :
  repr h r l ->
  dlist_type_foldr off func acc (mk_state h r) =
  Ok (fold_list func (map (GET_CONTAINER off) l) acc) (mk_state h r).
Proof.
  intros Hl. pose proof (repr_length h r l Hl) as Hlen.
  destruct Hl as (Hs & _ & Hn & Hh & _).
  unfold dlist_type_foldr, bind, get_head. destruct r as [hd tl]. cbv [head root heap] in *. rewrite Hh.
  eapply foldr_loop_seg; eauto.
Qed.

Lemma foldl_repr {A} off (func : Z -> A -> A * bool) h r l acc :
  repr h r l ->
  dlist_type_foldl off func acc (mk_state h r) =
  Ok (fold_list func (map (GET_CONTAINER off) (rev l)) acc) (mk_state h r).
Proof.
  intros Hl. pose proof (repr_length h r l Hl) as Hlen.
  destruct Hl as (Hs & _ & Hn & _ & Ht).
  unfold dlist_type_foldl, bind, get_tail. destruct r as [hd tl]. cbv [tail root heap] in *. rewrite Ht.
  eapply foldl_loop_seg; eauto.
Qed.

Lemma last_or_indep d e l : l <> [] -> last_or d l = last_or e l.
Proof. destruct l; [done|reflexivity]. Qed.

Lemma last_or_NULL_mem (l : list Z) : last_or NULL l = NULL \/ last_or NULL l ∈ l.
Proof.
  destruct l as [|a l]; [left; done|right]. apply (last_or_in NULL (a :: l)). done.
Qed.

Lemma hd_or_NULL_mem (l : list Z) : hd_or NULL l = NULL \/ hd_or NULL l ∈ l.
Proof. destruct l as [|a l]; [left; done|right; simpl; set_solver]. Qed.

(** ** Concrete memories and states *)

Lemma scen_heap_keys n a x :
  (n <= 1000)%nat ->
  scen_heap n !! a = Some x -> exists i, 1 <= i <= Z.of_nat n /\ a = 4096 + 24 * i.
Proof.
  intros Hn H. unfold scen_heap in H. apply elem_of_list_to_map_2 in H.
  apply list_elem_of_In, in_map_iff in H as (i & Ei & Hi).
  injection Ei as <- _. apply list_elem_of_In, elem_of_seqZ in Hi.
  exists i. split; [lia|]. unfold field_addr, mynode_off, rec_addr, addr_mod.
  rewrite Z.add_0_r. apply Z.mod_small. lia.
Qed.

Lemma scen_heap_wf n : (n <= 1000)%nat -> heap_wf (scen_heap n).
Proof.
  intros Hn a x H. destruct (scen_heap_keys n a x Hn H) as (i & Hi & ->).
  unfold valid_addr, NULL, addr_mod. lia.
Qed.

Lemma scen_heap_aligned n : (n <= 1000)%nat -> node_aligned (scen_heap n).
Proof.
  intros Hn a x H. destruct (scen_heap_keys n a x Hn H) as (i & Hi & ->).
  replace (4096 + 24 * i) with ((512 + 3 * i) * 8) by lia. apply Z.mod_mul. lia.
Qed.

Lemma reach_after s o :
  reachable s -> op_allowed s o -> (exists s', exec o s = Ok tt s') -> reachable (after o s).
Proof. intros Hr Ho [s' E]. unfold after. rewrite E. eapply reach_step; eauto. Qed.

Ltac reach_op :=
  apply reach_after;
  [ | unfold op_allowed;
      first [ split; [unfold is_Some; vm_compute; eauto
                     | refine (bool_decide_unpack _ _); vm_compute; exact I]
            | refine (bool_decide_unpack _ _); vm_compute; exact I
            | exact I ]
    | vm_compute; eexists; reflexivity ].

Lemma reach_state3 : reachable state3.
Proof.
  unfold state3. reach_op. reach_op. reach_op.
  apply reach_init, scen_heap_wf. lia.
Qed.

Lemma steps_never_stop {A} (func : Z -> A -> A * bool) recs acc :
  (forall r a, snd (func r a) = false) ->
  forall i x, steps func recs acc !! i = Some x -> snd x = false.
Proof.
  intros Hf. revert acc; induction recs as [|r rs IH]; intros acc i x Hi; [done|].
  simpl in Hi. destruct (func r acc) as [acc' t] eqn:E.
  destruct i as [|i]; simpl in Hi.
  - injection Hi as <-. simpl. pose proof (Hf r acc) as H. rewrite E in H. exact H.
  - eapply IH; eauto.
Qed.

(** * The claims *)

(** C1 (as amended).  For distinct allocated non-NULL nodes [ns], from any
    handle: [init], N [pushback]s and N [dequeue]s return the nodes in
    reverse insertion order ([dequeue] removes the tail, where [pushback]
    inserts: LIFO); [init], N [enqueue]s and N [pop]s also return them in
    reverse order (LIFO); [pushback] then [pop], and [enqueue] then
    [dequeue], return them in insertion order (FIFO). *)
Theorem round_trip_order h r ns :
  NoDup ns -> (forall a, a ∈ ns -> is_Some (h !! a)) -> NULL ∉ ns ->
  (exists s', pushback_then_dequeue ns (mk_state h r) = Ok (rev ns) s') /\
  (exists s', enqueue_then_pop ns (mk_state h r) = Ok (rev ns) s') /\
  (exists s', pushback_then_pop ns (mk_state h r) = Ok ns s') /\
  (exists s', enqueue_then_dequeue ns (mk_state h r) = Ok ns s').
Proof.
  intros Hnd Hal Hn.
  assert (H0 : forall a, a ∈ ns -> a ∉ @nil Z) by set_solver.
  destruct (pushback_all_run ns h (mk_root NULL NULL) [] (repr_empty h) Hnd Hal H0 Hn)
    as ([h1 r1] & Hpb & Hl1).
  destruct (enqueue_all_run ns h (mk_root NULL NULL) [] (repr_empty h) Hnd Hal H0 Hn)
    as ([h2 r2] & Hen & Hl2).
  simpl in Hl1, Hl2. rewrite app_nil_r in Hl2.
  destruct (dequeue_n_run ns h1 r1 Hl1) as (s1 & Hd1 & _).
  destruct (pop_n_run ns h1 r1 Hl1) as (s2 & Hp1 & _).
  destruct (dequeue_n_run (rev ns) h2 r2 Hl2) as (s3 & Hd2 & _).
  destruct (pop_n_run (rev ns) h2 r2 Hl2) as (s4 & Hp2 & _).
  rewrite length_rev in Hd2, Hp2. rewrite rev_involutive in Hd2.
  unfold pushback_then_dequeue, enqueue_then_pop, pushback_then_pop, enqueue_then_dequeue.
  rewrite !(bind_ok _ _ _ _ _ (init_run h r)). unfold init_state.
  rewrite !(bind_ok _ _ _ _ _ Hpb), !(bind_ok _ _ _ _ _ Hen).
  split_and!; eauto.
Qed.

(** C1, counterexample to the FIFO reading of [pushback] then [dequeue]:
    two records pushed back then dequeued come out in reverse order. *)
Lemma round_trip_fifo_counterexample :
  ~ exists s', pushback_then_dequeue [node_at 1; node_at 2] (init_state (scen_heap 2)) =
               Ok [node_at 1; node_at 2] s'.
Proof. intros [s' H]. vm_compute in H. congruence. Qed.

Lemma round_trip_order_witness :
  (exists s', pushback_then_dequeue [node_at 1; node_at 2; node_at 3]
                (init_state (scen_heap 3)) = Ok (rev [node_at 1; node_at 2; node_at 3]) s') /\
  (exists s', enqueue_then_pop [node_at 1; node_at 2; node_at 3]
                (init_state (scen_heap 3)) = Ok (rev [node_at 1; node_at 2; node_at 3]) s') /\
  (exists s', pushback_then_pop [node_at 1; node_at 2; node_at 3]
                (init_state (scen_heap 3)) = Ok [node_at 1; node_at 2; node_at 3] s') /\
  (exists s', enqueue_then_dequeue [node_at 1; node_at 2; node_at 3]
                (init_state (scen_heap 3)) = Ok [node_at 1; node_at 2; node_at 3] s').
Proof.
  apply (round_trip_order (scen_heap 3) (mk_root NULL NULL) [node_at 1; node_at 2; node_at 3]).
  - refine (bool_decide_unpack _ _). vm_compute. exact I.
  - intros a Ha. apply list_elem_of_In in Ha.
    destruct Ha as [<-|[<-|[<-|[]]]]; unfold is_Some; vm_compute; eauto.
  - refine (bool_decide_unpack _ _). vm_compute. exact I.
Defined.

(** C2.  On an empty list, the typed [pop], [dequeue], [head] and [tail] of
    a binding whose link field sits at a non-zero byte offset [off] return
    [GET_CONTAINER] of NULL, the address [2^64 - off], which is not NULL:
    the absent value of the core is not carried through the binding. *)
Theorem typed_empty_not_absent off h :
  0 < off < addr_mod ->
  dlist_type_pop off (init_state h) = Ok (addr_mod - off) (init_state h) /\
  dlist_type_dequeue off (init_state h) = Ok (addr_mod - off) (init_state h) /\
  dlist_type_head off (init_state h) = Ok (addr_mod - off) (init_state h) /\
  dlist_type_tail off (init_state h) = Ok (addr_mod - off) (init_state h) /\
  addr_mod - off <> NULL.
Proof.
  intros Hoff.
  assert (E : GET_CONTAINER off NULL = addr_mod - off).
  { unfold GET_CONTAINER, NULL. symmetry. apply (Z.mod_unique _ _ (-1)); lia. }
  unfold init_state, dlist_type_pop, dlist_type_dequeue, dlist_type_head, dlist_type_tail.
  rewrite (bind_ok _ _ _ _ _ (pop_empty h (mk_root NULL NULL) eq_refl)).
  rewrite (bind_ok _ _ _ _ _ (dequeue_empty h (mk_root NULL NULL) eq_refl)).
  unfold dlist_head, dlist_tail, bind, get_head, get_tail, ret. simpl.
  rewrite E. split_and!; try reflexivity. unfold NULL. lia.
Qed.

Lemma typed_empty_not_absent_witness :
  dlist_type_pop 16 (init_state (scen_heap 2)) = Ok (addr_mod - 16) (init_state (scen_heap 2)) /\
  addr_mod - 16 <> NULL.
Proof.
  destruct (typed_empty_not_absent 16 (scen_heap 2)) as (H1 & _ & _ & _ & H5).
  - unfold addr_mod. lia.
  - split; assumption.
Defined.

(** C3.  [destroy] on a handle whose head or tail is non-NULL aborts.  On
    the empty handle it succeeds and writes the poison value [0xdeadbeef]
    into head and tail; the poison is not NULL and, being odd, is not the
    address of any (8-byte aligned) node, so on the destroyed handle [pop],
    [dequeue], [check], [enqueue] and [pushback] fault; [init] makes it the
    empty handle again. *)
Theorem destroy_contract h r :
  ((head r <> NULL \/ tail r <> NULL) -> dlist_destroy (mk_state h r) = Abort) /\
  dlist_destroy (init_state h) = Ok tt (mk_state h (mk_root poison poison)) /\
  poison <> NULL /\
  (node_aligned h ->
     h !! poison = None /\
     dlist_pop (mk_state h (mk_root poison poison)) = Fault /\
     dlist_dequeue (mk_state h (mk_root poison poison)) = Fault /\
     dlist_check (mk_state h (mk_root poison poison)) = Fault /\
     (forall d, is_Some (h !! d) ->
        dlist_enqueue d (mk_state h (mk_root poison poison)) = Fault /\
        dlist_pushback d (mk_state h (mk_root poison poison)) = Fault)) /\
  dlist_init (mk_state h (mk_root poison poison)) = Ok tt (init_state h).
Proof.
  assert (Hp0 : poison <> NULL) by (unfold poison, NULL; lia).
  split_and!; try reflexivity; try exact Hp0.
  - destruct r as [hd tl]. simpl. intros Hne.
    unfold dlist_destroy, bind, get_head, get_tail. simpl.
    destruct (decide (hd = NULL)) as [->|Hhd].
    + destruct Hne as [Hne|Hne]; [done|].
      rewrite nonnull_NULL. simpl. rewrite nonnull_true by done. reflexivity.
    + rewrite nonnull_true by done. reflexivity.
  - intros Hal.
    assert (Hp : h !! poison = None).
    { destruct (h !! poison) as [n|] eqn:E; [|reflexivity].
      apply Hal in E. vm_compute in E. discriminate. }
    split_and!; [exact Hp| | | |].
    + unfold dlist_pop, bind, get_head, get_next. simpl.
      rewrite ?nonnull_true by done. simpl. rewrite Hp. reflexivity.
    + unfold dlist_dequeue, bind, get_tail, get_prev. simpl.
      rewrite ?nonnull_true by done. simpl. rewrite Hp. reflexivity.
    + unfold dlist_check, bind, get_head. simpl.
      rewrite ?nonnull_true by done. simpl. rewrite ?nonnull_NULL. simpl.
      unfold bind, get_prev. simpl. rewrite Hp. reflexivity.
    + intros d [n Hd].
      assert (Hdp : d <> poison) by congruence.
      split.
      * unfold dlist_enqueue, bind, set_prev, get_head, set_next, get_prev. simpl.
        rewrite Hd. simpl. rewrite lookup_insert_eq. simpl.
        rewrite ?nonnull_true by done. simpl.
        rewrite !lookup_insert_ne by congruence. rewrite Hp. reflexivity.
      * unfold dlist_pushback, bind, set_prev, get_tail, set_next, get_next. simpl.
        rewrite Hd. simpl. rewrite lookup_insert_eq. simpl.
        rewrite ?nonnull_true by done. simpl.
        rewrite !lookup_insert_ne by congruence. rewrite Hp. reflexivity.
Qed.

Lemma destroy_contract_witness :
  dlist_destroy (mk_state (scen_heap 2) (mk_root (node_at 1) (node_at 1))) = Abort /\
  dlist_pop (mk_state (scen_heap 2) (mk_root poison poison)) = Fault.
Proof.
  destruct (destroy_contract (scen_heap 2) (mk_root (node_at 1) (node_at 1)))
    as (H1 & _ & _ & H4 & _).
  split.
  - apply H1. left. vm_compute. discriminate.
  - destruct H4 as (_ & H & _); [apply scen_heap_aligned; lia|]. exact H.
Defined.

(** C4.  In every state reachable from [init] through the public
    operations (with the caller's contract), head is NULL exactly when tail
    is NULL, and exactly when the list has no node. *)
Theorem empty_iff s :
  reachable s ->
  (head (root s) = NULL <-> tail (root s) = NULL) /\
  (head (root s) = NULL <-> members s = []).
Proof.
  intros Hr. pose proof (reachable_repr s Hr) as (_ & _ & Hn & Hh & Ht).
  rewrite Hh, Ht. destruct (members s) as [|a l]; [simpl; tauto|].
  assert (Ha : a <> NULL) by set_solver.
  assert (Hl : last_or NULL (a :: l) <> NULL).
  { intros He. apply Hn. rewrite <- He. apply last_or_in. done. }
  simpl hd_or. split; split; intros E; congruence.
Qed.

Lemma empty_iff_witness :
  (head (root state3) = NULL <-> tail (root state3) = NULL) /\
  (head (root state3) = NULL <-> members state3 = []).
Proof. exact (empty_iff state3 reach_state3). Defined.

(** C5.  For a reachable handle and an allocated node [d] that is not in
    the list, [enqueue d] succeeds, the members become [d] followed by the
    old members, head becomes [d], and tail becomes [d] if the list was
    empty and is unchanged otherwise; [pushback d] succeeds, the members
    become the old members followed by [d], tail becomes [d], and head
    becomes [d] if the list was empty and is unchanged otherwise. *)
Theorem insert_ends s d :
  reachable s -> is_Some (heap s !! d) -> d ∉ members s ->
  (exists s', dlist_enqueue d s = Ok tt s' /\ members s' = d :: members s /\
     head (root s') = d /\
     (members s = [] -> tail (root s') = d) /\
     (members s <> [] -> tail (root s') = tail (root s))) /\
  (exists s', dlist_pushback d s = Ok tt s' /\ members s' = members s ++ [d] /\
     tail (root s') = d /\
     (members s = [] -> head (root s') = d) /\
     (members s <> [] -> head (root s') = head (root s))).
Proof.
  intros Hr [n0 Hn0] Hd. destruct (reachable_inv s Hr) as [Hw _].
  pose proof (reachable_repr s Hr) as Hl.
  remember (members s) as l eqn:El. clear El.
  destruct s as [h r]. cbn [heap root] in *.
  assert (Hd0 : d <> NULL) by (apply Hw in Hn0; unfold valid_addr in Hn0; lia).
  split.
  - destruct (enqueue_run h r l d n0 Hl Hn0 Hd Hd0) as ([h1 r1] & Hrun & Hl1).
    cbn [heap root] in Hl1. exists (mk_state h1 r1). rewrite (members_repr _ _ _ Hl1).
    destruct Hl1 as (_ & _ & _ & Hh1 & Ht1). destruct Hl as (_ & _ & _ & Hh & Ht).
    cbn [root] in *. split_and!; auto.
    + intros ->. exact Ht1.
    + intros E. rewrite Ht1, Ht. simpl. apply last_or_indep. exact E.
  - destruct (pushback_run h r l d n0 Hl Hn0 Hd Hd0) as ([h1 r1] & Hrun & Hl1).
    cbn [heap root] in Hl1. exists (mk_state h1 r1). rewrite (members_repr _ _ _ Hl1).
    destruct Hl1 as (_ & _ & _ & Hh1 & Ht1). destruct Hl as (_ & _ & _ & Hh & Ht).
    cbn [root] in *. split_and!; auto.
    + rewrite Ht1. apply last_or_snoc.
    + intros ->. exact Hh1.
    + intros E. rewrite Hh1, Hh, hd_or_app. destruct l; done.
Qed.

Lemma insert_ends_witness :
  exists s', dlist_enqueue (node_at 4) state3 = Ok tt s' /\
             members s' = node_at 4 :: members state3.
Proof.
  destruct (insert_ends state3 (node_at 4) reach_state3) as [(s' & E & Hm & _) _].
  - unfold is_Some. vm_compute. eauto.
  - refine (bool_decide_unpack _ _). vm_compute. exact I.
  - exists s'. split; assumption.
Defined.

(** C6.  On a reachable list, let [recs] be the records of its nodes in
    the order a fold visits them ([foldr]: head to tail; [foldl]: tail to
    head) and [steps] what the reducer returns at each of them.  If the
    reducer first sets the termination flag at call [S k] (index [k]), the
    fold calls it exactly [S k] times, on the first [S k] records, and
    returns the accumulator of that call; if it never sets the flag, the
    fold calls it on all [n] records, [n] the length of the list. *)
Theorem fold_termination {A} off (func : Z -> A -> A * bool) (acc : A) s :
  reachable s ->
  (forall k a,
     (forall i, (i < k)%nat ->
        snd <$> steps func (map (GET_CONTAINER off) (members s)) acc !! i = Some false) ->
     steps func (map (GET_CONTAINER off) (members s)) acc !! k = Some (a, true) ->
     dlist_type_foldr off func acc s = Ok (a, take (S k) (map (GET_CONTAINER off) (members s))) s /\
     length (take (S k) (map (GET_CONTAINER off) (members s))) = S k) /\
  (forall k a,
     (forall i, (i < k)%nat ->
        snd <$> steps func (map (GET_CONTAINER off) (rev (members s))) acc !! i = Some false) ->
     steps func (map (GET_CONTAINER off) (rev (members s))) acc !! k = Some (a, true) ->
     dlist_type_foldl off func acc s =
       Ok (a, take (S k) (map (GET_CONTAINER off) (rev (members s)))) s /\
     length (take (S k) (map (GET_CONTAINER off) (rev (members s)))) = S k) /\
  ((forall i x, steps func (map (GET_CONTAINER off) (members s)) acc !! i = Some x -> snd x = false) ->
     dlist_type_foldr off func acc s =
       Ok (final_acc func (map (GET_CONTAINER off) (members s)) acc,
           map (GET_CONTAINER off) (members s)) s /\
     length (map (GET_CONTAINER off) (members s)) = length (members s)) /\
  ((forall i x, steps func (map (GET_CONTAINER off) (rev (members s))) acc !! i = Some x ->
                snd x = false) ->
     dlist_type_foldl off func acc s =
       Ok (final_acc func (map (GET_CONTAINER off) (rev (members s))) acc,
           map (GET_CONTAINER off) (rev (members s))) s /\
     length (map (GET_CONTAINER off) (rev (members s))) = length (members s)).
Proof.
  intros Hr. pose proof (reachable_repr s Hr) as Hl.
  remember (members s) as l eqn:El. clear El.
  destruct s as [h r]. cbn [heap root] in *.
  rewrite (foldr_repr off func h r l acc Hl), (foldl_repr off func h r l acc Hl).
  split_and!.
  - intros k a Hbefore Hk. rewrite (fold_list_stop func _ acc k a Hbefore Hk).
    split; [reflexivity|]. apply length_take_le.
    apply lookup_lt_Some in Hk. rewrite steps_length in Hk. lia.
  - intros k a Hbefore Hk. rewrite (fold_list_stop func _ acc k a Hbefore Hk).
    split; [reflexivity|]. apply length_take_le.
    apply lookup_lt_Some in Hk. rewrite steps_length in Hk. lia.
  - intros Hall. rewrite (fold_list_all func _ acc Hall).
    split; [reflexivity|]. apply length_map.
  - intros Hall. rewrite (fold_list_all func _ acc Hall).
    split; [reflexivity|]. rewrite length_map. apply length_rev.
Qed.

Lemma fold_termination_witness :
  dlist_type_foldr mynode_off (stop_at 2) 0 state3 =
    Ok (2, take 2 (map (GET_CONTAINER mynode_off) (members state3))) state3 /\
  dlist_type_foldl mynode_off (stop_at 2) 0 state3 =
    Ok (2, take 2 (map (GET_CONTAINER mynode_off) (rev (members state3)))) state3.
Proof.
  destruct (fold_termination mynode_off (stop_at 2) 0 state3 reach_state3)
    as (Hr & Hl & _ & _).
  split.
  - apply (Hr 1%nat 2).
    + intros i Hi. destruct i as [|i]; [vm_compute; reflexivity|lia].
    + vm_compute. reflexivity.
  - apply (Hl 1%nat 2).
    + intros i Hi. destruct i as [|i]; [vm_compute; reflexivity|lia].
    + vm_compute. reflexivity.
Defined.

(** C7.  On a reachable non-empty list, the members (the nodes met from
    head along [next]) are linked in order by [next] and [prev], start at
    head and end at tail; with a reducer that never stops, [foldr] visits
    the records of the members in that order, [foldl] visits exactly the
    reverse sequence, and no record is visited twice. *)
Theorem traversal_orders s :
  reachable s -> head (root s) <> NULL ->
  members s <> [] /\
  hd_or NULL (members s) = head (root s) /\
  last_or NULL (members s) = tail (root s) /\
  seg (heap s) NULL (members s) NULL /\
  (forall off, NoDup (map (GET_CONTAINER off) (members s))) /\
  (forall off (A : Type) (func : Z -> A -> A * bool) (acc : A),
     (forall r a, snd (func r a) = false) ->
     (exists a, dlist_type_foldr off func acc s =
                Ok (a, map (GET_CONTAINER off) (members s)) s) /\
     (exists a, dlist_type_foldl off func acc s =
                Ok (a, rev (map (GET_CONTAINER off) (members s))) s)).
Proof.
  intros Hr Hh0. pose proof (reachable_valid s Hr) as Hv.
  pose proof (reachable_repr s Hr) as Hl.
  remember (members s) as l eqn:El. clear El.
  destruct s as [h r]. cbn [heap root] in *.
  pose proof Hl as (Hs & Hnd & Hn & Hh & Ht).
  split_and!; auto.
  - intros ->. apply Hh0. rewrite Hh. reflexivity.
  - intros off. apply NoDup_map_GET_CONTAINER; auto.
  - intros off A func acc Hf. split.
    + rewrite (foldr_repr off func h r l acc Hl).
      rewrite (fold_list_all func _ acc (steps_never_stop func _ acc Hf)). eauto.
    + rewrite (foldl_repr off func h r l acc Hl).
      rewrite (fold_list_all func _ acc (steps_never_stop func _ acc Hf)).
      rewrite map_rev. eauto.
Qed.

Lemma traversal_orders_witness :
  exists a, dlist_type_foldl mynode_off collect [] state3 =
            Ok (a, rev (map (GET_CONTAINER mynode_off) (members state3))) state3.
Proof.
  destruct (traversal_orders state3 reach_state3) as (_ & _ & _ & _ & _ & Hf).
  - vm_compute. discriminate.
  - destruct (Hf mynode_off _ collect [] (fun _ _ => eq_refl)) as [_ H]. exact H.
Defined.

(** C8.  Concrete scenario B: [init]; [pushback] of the records valued 1
    to 20 in order; [pop] returns the record valued 1; [dequeue] returns
    the record valued 20; 18 records remain, with head valued 2 and tail
    valued 19 (whatever the handle held before [init]). *)
Theorem scenario_B_result r :
  exists s', scenario_B (mk_state (scen_heap 20) r) =
             Ok (Some 1, Some 20, Some 2, Some 19, 18%nat) s'.
Proof.
  unfold scenario_B, dlist_type_init.
  rewrite (bind_ok _ _ _ _ _ (init_run _ _)).
  vm_compute. eexists. reflexivity.
Qed.

(** C9.  [check] succeeds, leaving the state unchanged, on every state
    reachable from [init] through the public operations: none of its
    assertions fails. *)
Theorem check_reachable s :
  reachable s -> dlist_check s = Ok tt s.
Proof.
  intros Hr. pose proof (reachable_repr s Hr) as Hl.
  remember (members s) as l eqn:El. clear El.
  destruct s as [h [hd tl]]. cbn [heap root] in *.
  pose proof (repr_length _ _ _ Hl) as Hlen.
  destruct Hl as (Hs & _ & Hn & Hh & Ht). cbn [head tail] in Hh, Ht. subst hd tl.
  unfold dlist_check, bind, get_head, get_tail. cbv [head tail root heap].
  rewrite (check_loop_seg h _ NULL l (S (size h))); auto.
  cbv [head tail root heap]. rewrite Z.eqb_refl. reflexivity.
Qed.

Lemma check_reachable_witness : dlist_check state3 = Ok tt state3.
Proof. exact (check_reachable state3 reach_state3). Defined.

(** C10.  On a reachable state, the node removed by [pop], [dequeue] or
    [remove] keeps its own [next] and [prev] fields; the only other nodes
    written are the neighbours it pointed to ([next] for [pop], [prev] for
    [dequeue], both for [remove]). *)
Theorem removal_frame s :
  reachable s ->
  (forall a s', dlist_pop s = Ok a s' -> a <> NULL ->
     exists n, heap s !! a = Some n /\ heap s' !! a = Some n /\
       (forall x, x <> next n -> heap s' !! x = heap s !! x)) /\
  (forall a s', dlist_dequeue s = Ok a s' -> a <> NULL ->
     exists n, heap s !! a = Some n /\ heap s' !! a = Some n /\
       (forall x, x <> prev n -> heap s' !! x = heap s !! x)) /\
  (forall d s', d ∈ members s -> dlist_remove d s = Ok tt s' ->
     exists n, heap s !! d = Some n /\ heap s' !! d = Some n /\
       (forall x, x <> next n -> x <> prev n -> heap s' !! x = heap s !! x)).
Proof.
  intros Hr. pose proof (reachable_repr s Hr) as Hl.
  remember (members s) as l eqn:El. clear El.
  destruct s as [h r]. cbn [heap root] in *.
  split_and!.
  - intros a s' Hrun Ha0. destruct l as [|b l].
    + pose proof Hl as (_ & _ & _ & Hh & _).
      rewrite pop_empty in Hrun by done. congruence.
    + destruct (pop_run h r b l Hl) as (s'' & Hrun' & _ & Hframe).
      rewrite Hrun' in Hrun. injection Hrun as <- <-.
      pose proof Hl as (Hs & Hnd & Hn & _ & _). destruct Hs as [Hb _].
      apply NoDup_cons in Hnd as [Hbl _].
      exists (mk_node (hd_or NULL l) NULL). split_and!; auto.
      rewrite Hframe; auto.
      intros E. destruct (hd_or_NULL_mem l) as [E'|E']; rewrite <- E in E'; [congruence|contradiction].
  - intros a s' Hrun Ha0. destruct l as [|b l _] using rev_ind.
    + pose proof Hl as (_ & _ & _ & _ & Ht).
      rewrite dequeue_empty in Hrun by done. congruence.
    + destruct (dequeue_run h r l b Hl) as (s'' & Hrun' & _ & Hframe).
      rewrite Hrun' in Hrun. injection Hrun as <- <-.
      pose proof Hl as (Hs & Hnd & Hn & _ & _). apply seg_snoc in Hs as [_ Hb].
      apply (NoDup_mid l []) in Hnd as (Hbl & _ & _).
      exists (mk_node NULL (last_or NULL l)). split_and!; auto.
      rewrite Hframe; auto.
      intros E. destruct (last_or_NULL_mem l) as [E'|E']; rewrite <- E in E'; [congruence|contradiction].
  - intros d s' Hd Hrun. apply list_elem_of_split in Hd as (l1 & l2 & ->).
    destruct (remove_run h r l1 d l2 Hl) as (s'' & Hrun' & _ & Hframe).
    rewrite Hrun' in Hrun. injection Hrun as <-.
    pose proof Hl as (Hs & Hnd & Hn & _ & _). apply seg_mid in Hs as (_ & Hd & _).
    apply NoDup_mid in Hnd as (Hd1 & Hd2 & _).
    assert (Hd0 : d <> NULL) by set_solver.
    exists (mk_node (hd_or NULL l2) (last_or NULL l1)). split_and!; auto.
    rewrite Hframe; auto.
    + intros E. destruct (last_or_NULL_mem l1) as [E'|E']; rewrite <- E in E'; [congruence|contradiction].
    + intros E. destruct (hd_or_NULL_mem l2) as [E'|E']; rewrite <- E in E'; [congruence|contradiction].
Qed.

Lemma removal_frame_witness :
  exists n, heap state3 !! node_at 1 = Some n /\
            heap (after OPop state3) !! node_at 1 = Some n.
Proof.
  destruct (removal_frame state3 reach_state3) as [Hpop _].
  destruct (Hpop (node_at 1) (after OPop state3)) as (n & H1 & H2 & _).
  - vm_compute. reflexivity.
  - vm_compute. discriminate.
  - exists n. split; assumption.
Defined.

(** * Further properties of the code *)

(** ** A list linked by [next] and [prev] has no repeated node *)

Lemma seg_length h p l nx : seg h p l nx -> NoDup l -> (length l <= size h)%nat.
Proof.
  intros Hs Hnd.
  rewrite <- (size_list_to_set (C := gset Z) l Hnd), <- size_dom.
  apply subseteq_size. intros x Hx. apply elem_of_list_to_set in Hx.
  apply elem_of_dom. eapply seg_lookup; eauto.
Qed.

Lemma hd_or_NULL_nil (l : list Z) : NULL ∉ l -> hd_or NULL l = NULL -> l = [].
Proof. destruct l as [|a l]; [done|]. simpl. intros Hn ->. set_solver. Qed.

Lemma last_or_NULL_nil (l : list Z) : NULL ∉ l -> last_or NULL l = NULL -> l = [].
Proof.
  destruct l as [|a l]; [done|]. intros Hn He. exfalso. apply Hn.
  rewrite <- He. apply (last_or_in NULL (a :: l)). done.
Qed.

(** Following [next] from a node to NULL determines the nodes met. *)
Lemma seg_suffix_unique h p p' l l' :
  seg h p l NULL -> seg h p' l' NULL -> NULL ∉ l -> NULL ∉ l' ->
  hd_or NULL l = hd_or NULL l' -> l = l'.
Proof.
  revert p p' l'; induction l as [|a l IH]; intros p p' l' Hs Hs' Hn Hn' Hhd.
  - symmetry. apply hd_or_NULL_nil; auto.
  - destruct l' as [|a' l']; simpl in Hhd.
    + exfalso. apply Hn. rewrite Hhd. set_solver.
    + subst a'. destruct Hs as [Ha Hs], Hs' as [Ha' Hs'].
      rewrite Ha in Ha'. injection Ha' as Hnx _.
      f_equal. apply (IH a a); auto; set_solver.
Qed.

(** Following [prev] from a node back to NULL determines the nodes met. *)
Lemma seg_prefix_unique h l l' nx nx' :
  seg h NULL l nx -> seg h NULL l' nx' -> NULL ∉ l -> NULL ∉ l' ->
  last_or NULL l = last_or NULL l' -> l = l'.
Proof.
  revert l' nx nx'; induction l as [|a l IH] using rev_ind; intros l' nx nx' Hs Hs' Hn Hn' Hl.
  - symmetry. apply last_or_NULL_nil; auto.
  - destruct l' as [|a' l' _] using rev_ind.
    + exfalso. apply Hn. simpl in Hl. rewrite last_or_snoc in Hl. rewrite Hl. set_solver.
    + rewrite !last_or_snoc in Hl. subst a'.
      apply seg_snoc in Hs as [Hs Ha]. apply seg_snoc in Hs' as [Hs' Ha'].
      rewrite Ha in Ha'. injection Ha' as _ Hlast.
      f_equal. apply (IH l' a a); auto; set_solver.
Qed.

Lemma seg_NoDup h l nx : seg h NULL l nx -> NULL ∉ l -> NoDup l.
Proof.
  revert nx; induction l as [|a l IH] using rev_ind; intros nx Hs Hn; [constructor|].
  pose proof Hs as Hs0. apply seg_snoc in Hs as [Hs Ha].
  apply NoDup_snoc; [|eapply IH; eauto; set_solver].
  intros Hal. apply list_elem_of_split in Hal as (l2 & l3 & ->).
  pose proof Hs0 as Hs1. rewrite <- app_assoc in Hs1. simpl in Hs1.
  apply seg_mid in Hs1 as (Hs2 & Ha2 & _).
  assert (E : l2 ++ [a] = (l2 ++ a :: l3) ++ [a]).
  { apply (seg_prefix_unique h _ _ (hd_or nx (l3 ++ [a])) nx).
    - apply seg_snoc. split; [exact Hs2|exact Ha2].
    - exact Hs0.
    - set_solver.
    - exact Hn.
    - rewrite !last_or_snoc. reflexivity. }
  apply (f_equal length) in E. rewrite !length_app in E. simpl in E. lia.
Qed.

(** ** What [dlist_check] accepts *)

Lemma check_loop_ok fuel ptr last h r x s' :
  check_loop fuel ptr last (mk_state h r) = Ok x s' ->
  s' = mk_state h r /\
  exists l, hd_or NULL l = ptr /\ (NULL ∉ l) /\ seg h last l NULL /\ x = last_or last l.
Proof.
  revert ptr last x s'; induction fuel as [|fuel IH]; intros ptr last x s' Hrun.
  - simpl in Hrun. destruct (nonnull ptr) eqn:Hp; simpl in Hrun; [discriminate|].
    injection Hrun as <- <-. split; [done|]. exists [].
    unfold nonnull in Hp. apply negb_false_iff, Z.eqb_eq in Hp. subst ptr. simpl. split_and!; try done; set_solver.
  - simpl in Hrun. destruct (nonnull ptr) eqn:Hp; simpl in Hrun.
    2:{ injection Hrun as <- <-. split; [done|]. exists [].
        unfold nonnull in Hp. apply negb_false_iff, Z.eqb_eq in Hp. subst ptr. simpl. split_and!; try done; set_solver. }
    assert (Hp0 : ptr <> NULL).
    { unfold nonnull in Hp. apply negb_true_iff, Z.eqb_neq in Hp. exact Hp. }
    unfold bind at 1 in Hrun.
    match type of Hrun with
    | (match ?m with _ => _ end) = _ => destruct m as [[] s1| | |] eqn:E; try discriminate
    end.
    (* the assertions hold and leave the state unchanged *)
    assert (Hpr : s1 = mk_state h r /\ exists nx, h !! ptr = Some (mk_node nx last)).
    { destruct (nonnull last) eqn:Hl.
      - unfold bind, get_next, get_prev, assert in E. simpl in E.
        destruct (h !! last) as [nl|]; simpl in E; [|discriminate].
        destruct (next nl =? ptr); simpl in E; [|discriminate].
        destruct (h !! ptr) as [[nx pv]|]; simpl in E; [|discriminate].
        destruct (last =? pv) eqn:Epv; simpl in E; [|discriminate]. injection E as <-.
        apply Z.eqb_eq in Epv. subst pv. eauto.
      - unfold bind, get_prev, assert in E. simpl in E.
        destruct (h !! ptr) as [[nx pv]|]; simpl in E; [|discriminate].
        destruct (pv =? NULL) eqn:Epv; simpl in E; [|discriminate]. injection E as <-.
        apply Z.eqb_eq in Epv. unfold nonnull in Hl.
        apply negb_false_iff, Z.eqb_eq in Hl. subst. eauto. }
    destruct Hpr as [-> [nx Hptr]].
    unfold bind, get_next in Hrun. cbn [heap] in Hrun. rewrite Hptr in Hrun. simpl in Hrun.
    destruct (check_loop fuel nx ptr (mk_state h r)) as [y s2| | |] eqn:Erec; try discriminate.
    injection Hrun as <- <-.
    destruct (IH nx ptr _ _ Erec) as [-> (l & Hhd & Hn & Hs & ->)].
    split; [done|]. exists (ptr :: l). simpl. rewrite Hhd.
    split_and!; auto. set_solver.
Qed.

Lemma check_loop_diverge fuel ptr last h r :
  check_loop fuel ptr last (mk_state h r) = Diverge ->
  exists l nx, length l = fuel /\ hd_or nx l = ptr /\ (NULL ∉ l) /\ seg h last l nx.
Proof.
  revert ptr last; induction fuel as [|fuel IH]; intros ptr last Hrun.
  - exists [], ptr. simpl. split_and!; auto. set_solver.
  - simpl in Hrun. destruct (nonnull ptr) eqn:Hp; simpl in Hrun; [|discriminate].
    assert (Hp0 : ptr <> NULL).
    { unfold nonnull in Hp. apply negb_true_iff, Z.eqb_neq in Hp. exact Hp. }
    unfold bind at 1 in Hrun.
    match type of Hrun with
    | (match ?m with _ => _ end) = _ => destruct m as [[] s1| | |] eqn:E; try discriminate
    end.
    assert (Hpr : s1 = mk_state h r /\ exists nx, h !! ptr = Some (mk_node nx last)).
    { destruct (nonnull last) eqn:Hl.
      - unfold bind, get_next, get_prev, assert in E. simpl in E.
        destruct (h !! last) as [nl|]; simpl in E; [|discriminate].
        destruct (next nl =? ptr); simpl in E; [|discriminate].
        destruct (h !! ptr) as [[nx pv]|]; simpl in E; [|discriminate].
        destruct (last =? pv) eqn:Epv; simpl in E; [|discriminate]. injection E as <-.
        apply Z.eqb_eq in Epv. subst pv. eauto.
      - unfold bind, get_prev, assert in E. simpl in E.
        destruct (h !! ptr) as [[nx pv]|]; simpl in E; [|discriminate].
        destruct (pv =? NULL) eqn:Epv; simpl in E; [|discriminate]. injection E as <-.
        apply Z.eqb_eq in Epv. unfold nonnull in Hl.
        apply negb_false_iff, Z.eqb_eq in Hl. subst. eauto. }
    destruct Hpr as [-> [nx Hptr]].
    unfold bind, get_next in Hrun. cbn [heap] in Hrun. rewrite Hptr in Hrun. simpl in Hrun.
    destruct (check_loop fuel nx ptr (mk_state h r)) eqn:Erec; try discriminate.
    destruct (IH nx ptr Erec) as (l & nx' & Hlen & Hhd & Hn & Hs).
    exists (ptr :: l), nx'. simpl. rewrite Hhd. split_and!; auto. set_solver.
    (* the assertions never loop *)
    exfalso. destruct (nonnull last);
      unfold bind, get_next, get_prev, assert in E; simpl in E;
      repeat (case_match; simpl in E); discriminate.
Qed.

(** Run a monadic computation in hypothesis [H], splitting on every test. *)
Ltac run_in H :=
  unfold bind, ret, assert, panic, get_head, get_tail, set_head, set_tail,
    get_next, get_prev, set_next, set_prev in H;
  simpl in H; repeat (case_match; simplify_eq/=).

Lemma repr_check h r l : repr h r l -> dlist_check (mk_state h r) = Ok tt (mk_state h r).
Proof.
  intros Hl. pose proof (repr_length _ _ _ Hl) as Hlen.
  destruct r as [hd tl]. destruct Hl as (Hs & _ & Hn & Hh & Ht). cbn [head tail] in Hh, Ht.
  subst hd tl.
  unfold dlist_check, bind, get_head, get_tail. cbv [head tail root heap].
  rewrite (check_loop_seg h _ NULL l (S (size h))); auto.
  cbv [head tail root heap]. rewrite Z.eqb_refl. reflexivity.
Qed.

(** [dlist_check] accepts exactly the handles that hold a well-formed list:
    it succeeds, leaving the state unchanged, if and only if following [next]
    from head meets distinct nodes linked back by [prev], the first with a
    NULL [prev], the last with a NULL [next], and tail is the last of them. *)
Theorem check_exact s s' :
  dlist_check s = Ok tt s' <-> s' = s /\ exists l, repr (heap s) (root s) l.
Proof.
  destruct s as [h r]. split.
  - intros Hrun. unfold dlist_check, bind at 1, get_head in Hrun. cbn [heap root] in Hrun.
    unfold bind at 1 in Hrun. cbn [heap root] in Hrun.
    destruct (check_loop (S (size h)) (head r) NULL (mk_state h r)) as [x s1| | |] eqn:E;
      simpl in Hrun; try discriminate.
    destruct (check_loop_ok _ _ _ _ _ _ _ E) as [-> (l & Hhd & Hn & Hs & ->)].
    unfold bind, get_tail, assert in Hrun. cbn [root] in Hrun.
    destruct (last_or NULL l =? tail r) eqn:Et; simpl in Hrun; [|discriminate].
    injection Hrun as <-. apply Z.eqb_eq in Et.
    split; [done|]. exists l. cbn [heap root].
    unfold repr. split_and!;
      [exact Hs|exact (seg_NoDup h l NULL Hs Hn)|exact Hn|symmetry; exact Hhd|symmetry; exact Et].
  - intros [-> [l Hl]]. exact (repr_check h r l Hl).
Qed.

(** [dlist_check] always ends: on any handle and memory, however corrupted,
    its loop never runs forever (it returns, aborts on an assertion, or
    dereferences an invalid pointer). *)
Theorem check_never_diverges s : dlist_check s <> Diverge.
Proof.
  destruct s as [h r]. intros Hrun.
  unfold dlist_check, bind at 1, get_head in Hrun. cbn [heap root] in Hrun.
  unfold bind at 1 in Hrun. cbn [heap root] in Hrun.
  destruct (check_loop (S (size h)) (head r) NULL (mk_state h r)) eqn:E;
    simpl in Hrun; try discriminate.
  - unfold bind, get_tail, assert in Hrun. simpl in Hrun. case_match; discriminate.
  - destruct (check_loop_diverge _ _ _ _ _ E) as (l & nx & Hlen & _ & Hn & Hs).
    pose proof (seg_length h NULL l nx Hs (seg_NoDup h l nx Hs Hn)). lia.
Qed.

Lemma check_head_prev_abort h r n :
  head r <> NULL -> h !! head r = Some n -> prev n <> NULL ->
  dlist_check (mk_state h r) = Abort.
Proof.
  intros Hh Hn Hp. unfold dlist_check, bind, get_head. cbn [heap root].
  remember (S (size h)) as f. destruct f as [|f]; [lia|]. simpl.
  rewrite nonnull_true by done. rewrite ?nonnull_NULL. simpl.
  unfold get_prev, bind, assert. simpl. rewrite Hn. simpl.
  apply Z.eqb_neq in Hp. rewrite Hp. reflexivity.
Qed.

(** [dlist_check] aborts when the head node's [prev] is not NULL. *)
Theorem check_detects_head_prev h r n :
  head r <> NULL -> h !! head r = Some n -> prev n <> NULL ->
  dlist_check (mk_state h r) = Abort.
Proof. exact (check_head_prev_abort h r n). Qed.

Lemma check_detects_head_prev_witness :
  dlist_check (mk_state {[8 := mk_node NULL 8]} (mk_root 8 8)) = Abort.
Proof.
  apply (check_detects_head_prev _ _ (mk_node NULL 8)).
  - vm_compute. discriminate.
  - vm_compute. reflexivity.
  - vm_compute. discriminate.
Defined.

(** ** Removals and insertions on a reachable list *)

(** [pop] on a non-empty list returns its head and leaves the rest, in
    order; the result is again reachable. *)
Theorem pop_head s a l :
  reachable s -> members s = a :: l ->
  exists s', dlist_pop s = Ok a s' /\ members s' = l /\ reachable s'.
Proof.
  intros Hr Hm. pose proof (reachable_repr s Hr) as Hl. rewrite Hm in Hl.
  destruct s as [h r]. cbn [heap root] in Hl.
  destruct (pop_run h r a l Hl) as ([h1 r1] & Hrun & Hl1 & _).
  exists (mk_state h1 r1). split_and!; [done| |].
  - apply members_repr. exact Hl1.
  - eapply (reach_step _ OPop); [exact Hr|exact I|]. simpl. unfold bind at 1. rewrite Hrun. reflexivity.
Qed.

Lemma pop_head_witness :
  exists s', dlist_pop state3 = Ok (node_at 1) s' /\ members s' = [node_at 2; node_at 3].
Proof.
  destruct (pop_head state3 (node_at 1) [node_at 2; node_at 3] reach_state3) as (s' & E & Hm & _).
  - vm_compute. reflexivity.
  - exists s'. split; assumption.
Defined.

(** [dequeue] on a non-empty list returns its tail and leaves the rest, in
    order; the result is again reachable. *)
Theorem dequeue_tail s l a :
  reachable s -> members s = l ++ [a] ->
  exists s', dlist_dequeue s = Ok a s' /\ members s' = l /\ reachable s'.
Proof.
  intros Hr Hm. pose proof (reachable_repr s Hr) as Hl. rewrite Hm in Hl.
  destruct s as [h r]. cbn [heap root] in Hl.
  destruct (dequeue_run h r l a Hl) as ([h1 r1] & Hrun & Hl1 & _).
  exists (mk_state h1 r1). split_and!; [done| |].
  - apply members_repr. exact Hl1.
  - eapply (reach_step _ ODequeue); [exact Hr|exact I|]. simpl. unfold bind at 1. rewrite Hrun. reflexivity.
Qed.

Lemma dequeue_tail_witness :
  exists s', dlist_dequeue state3 = Ok (node_at 3) s' /\ members s' = [node_at 1; node_at 2].
Proof.
  destruct (dequeue_tail state3 [node_at 1; node_at 2] (node_at 3) reach_state3) as (s' & E & Hm & _).
  - vm_compute. reflexivity.
  - exists s'. split; assumption.
Defined.

(** On an empty reachable list, [pop] and [dequeue] return NULL and change
    nothing. *)
Theorem pop_dequeue_empty s :
  reachable s -> members s = [] ->
  dlist_pop s = Ok NULL s /\ dlist_dequeue s = Ok NULL s.
Proof.
  intros Hr Hm. pose proof (reachable_repr s Hr) as Hl. rewrite Hm in Hl.
  destruct s as [h r]. destruct Hl as (_ & _ & _ & Hh & Ht). cbn [root] in Hh, Ht.
  split; [apply pop_empty|apply dequeue_empty]; done.
Qed.

Lemma pop_dequeue_empty_witness :
  dlist_pop (init_state (scen_heap 2)) = Ok NULL (init_state (scen_heap 2)).
Proof.
  apply (pop_dequeue_empty (init_state (scen_heap 2))).
  - apply reach_init, scen_heap_wf. lia.
  - vm_compute. reflexivity.
Defined.

(** [remove] of a member splices it out: the other members stay, in order,
    and the result is again reachable. *)
Theorem remove_member s l1 d l2 :
  reachable s -> members s = l1 ++ d :: l2 ->
  exists s', dlist_remove d s = Ok tt s' /\ members s' = l1 ++ l2 /\ reachable s'.
Proof.
  intros Hr Hm. pose proof (reachable_repr s Hr) as Hl. rewrite Hm in Hl.
  destruct s as [h r]. cbn [heap root] in Hl.
  destruct (remove_run h r l1 d l2 Hl) as ([h1 r1] & Hrun & Hl1 & _).
  exists (mk_state h1 r1). split_and!; [done| |].
  - apply members_repr. exact Hl1.
  - eapply (reach_step _ (ORemove d)); [exact Hr| |exact Hrun].
    simpl. rewrite Hm. set_solver.
Qed.

Lemma remove_member_witness :
  exists s', dlist_remove (node_at 2) state3 = Ok tt s' /\ members s' = [node_at 1; node_at 3].
Proof.
  destruct (remove_member state3 [node_at 1] (node_at 2) [node_at 3] reach_state3) as (s' & E & Hm & _).
  - vm_compute. reflexivity.
  - exists s'. split; assumption.
Defined.

(** A caller that keeps the contract never sees an assertion fail or an
    invalid dereference: from a reachable state every allowed operation
    succeeds. *)
Theorem ops_succeed s o :
  reachable s -> op_allowed s o -> exists s', exec o s = Ok tt s'.
Proof.
  intros Hr Ho. destruct (reachable_inv s Hr) as [Hw _].
  pose proof (reachable_repr s Hr) as Hl.
  destruct s as [h r]. cbn [heap root] in *.
  unfold op_allowed in Ho. cbn [heap] in Ho.
  remember (members (mk_state h r)) as l eqn:El. clear El.
  destruct o as [d|d|d| | |d]; simpl.
  - destruct Ho as [[n0 Hn0] Hd]. pose proof (Hw d n0 Hn0) as Hv.
    destruct (enqueue_run h r l d n0) as (s'' & Hrun & _); eauto.
    unfold valid_addr in Hv. lia.
  - destruct Ho as [[n0 Hn0] Hd]. pose proof (Hw d n0 Hn0) as Hv.
    destruct (pushback_run h r l d n0) as (s'' & Hrun & _); eauto.
    unfold valid_addr in Hv. lia.
  - destruct Ho as [[n0 Hn0] Hd]. pose proof (Hw d n0 Hn0) as Hv.
    destruct (enqueue_run h r l d n0) as (s'' & Hrun & _); eauto.
    unfold valid_addr in Hv. lia.
  - destruct l as [|a l'].
    + pose proof Hl as (_ & _ & _ & Hh & _).
      unfold bind. rewrite pop_empty by done. eauto.
    + destruct (pop_run h r a l') as (s'' & Hrun & _); auto.
      unfold bind. rewrite Hrun. eauto.
  - destruct l as [|a l' _] using rev_ind.
    + pose proof Hl as (_ & _ & _ & _ & Ht).
      unfold bind. rewrite dequeue_empty by done. eauto.
    + destruct (dequeue_run h r l' a) as (s'' & Hrun & _); auto.
      unfold bind. rewrite Hrun. eauto.
  - apply list_elem_of_split in Ho as (l1 & l2 & ->).
    destruct (remove_run h r l1 d l2) as (s'' & Hrun & _); eauto.
Qed.

Lemma ops_succeed_witness :
  exists s', exec (OPushback (node_at 4)) state3 = Ok tt s'.
Proof.
  apply (ops_succeed state3 (OPushback (node_at 4)) reach_state3).
  split.
  - unfold is_Some. vm_compute. eauto.
  - refine (bool_decide_unpack _ _). vm_compute. exact I.
Defined.



(** On a reachable handle, [destroy] succeeds, poisoning head and tail,
    exactly when the list is empty, and aborts otherwise. *)
Theorem destroy_reachable s :
  reachable s ->
  (members s = [] -> dlist_destroy s = Ok tt (mk_state (heap s) (mk_root poison poison))) /\
  (members s <> [] -> dlist_destroy s = Abort).
Proof.
  intros Hr. pose proof (reachable_repr s Hr) as Hl.
  remember (members s) as l eqn:El. clear El.
  destruct s as [h [hd tl]]. destruct Hl as (_ & _ & Hn & Hh & Ht). cbn [head tail root heap] in *.
  subst hd tl. split.
  - intros ->. cbn [hd_or last_or]. reflexivity.
  - intros Hne. unfold dlist_destroy, bind, get_head. simpl.
    rewrite nonnull_true; [reflexivity|].
    intros He. apply Hn. rewrite <- He. apply hd_or_in. exact Hne.
Qed.

Lemma destroy_reachable_witness : dlist_destroy state3 = Abort.
Proof.
  apply (proj2 (destroy_reachable state3 reach_state3)).
  vm_compute. discriminate.
Defined.

(** ** What the insertion and removal assertions catch *)

(** [enqueue] aborts, whatever the node, when the handle is half empty
    (head NULL, tail not), and when the head node (another node than the
    one inserted) has a non-NULL [prev]. *)
Theorem enqueue_aborts h r d n :
  h !! d = Some n ->
  (head r = NULL -> tail r <> NULL -> dlist_enqueue d (mk_state h r) = Abort) /\
  (forall m, head r <> NULL -> head r <> d -> h !! head r = Some m -> prev m <> NULL ->
     dlist_enqueue d (mk_state h r) = Abort).
Proof.
  intros Hd. destruct r as [hd tl]. cbn [head tail]. split.
  - intros -> Ht. unfold dlist_enqueue. unfold_m. rewrite Hd. simpl.
    rewrite lookup_insert_eq. simpl. rewrite ?nonnull_NULL, nonnull_true by done. reflexivity.
  - intros m Hh Hne Hm Hp. unfold dlist_enqueue. unfold_m. rewrite Hd. simpl.
    rewrite lookup_insert_eq. simpl. rewrite nonnull_true by done. simpl.
    rewrite !lookup_insert_ne by congruence. rewrite Hm. simpl.
    rewrite nonnull_true by done. reflexivity.
Qed.

Lemma enqueue_aborts_witness :
  dlist_enqueue 8 (mk_state {[8 := mk_node NULL NULL]} (mk_root NULL 16)) = Abort.
Proof.
  destruct (enqueue_aborts {[8 := mk_node NULL NULL]} (mk_root NULL 16) 8 (mk_node NULL NULL)) as [H _].
  - vm_compute. reflexivity.
  - apply H.
    + vm_compute. reflexivity.
    + vm_compute. discriminate.
Defined.

(** [pushback] aborts, whatever the node, when the handle is half empty
    (tail NULL, head not), and when the tail node (another node than the
    one inserted) has a non-NULL [next]. *)
Theorem pushback_aborts h r d n :
  h !! d = Some n ->
  (tail r = NULL -> head r <> NULL -> dlist_pushback d (mk_state h r) = Abort) /\
  (forall m, tail r <> NULL -> tail r <> d -> h !! tail r = Some m -> next m <> NULL ->
     dlist_pushback d (mk_state h r) = Abort).
Proof.
  intros Hd. destruct r as [hd tl]. cbn [head tail]. split.
  - intros -> Hh. unfold dlist_pushback. unfold_m. rewrite Hd. simpl.
    rewrite lookup_insert_eq. simpl. rewrite ?nonnull_NULL, nonnull_true by done. reflexivity.
  - intros m Ht Hne Hm Hn. unfold dlist_pushback. unfold_m. rewrite Hd. simpl.
    rewrite lookup_insert_eq. simpl. rewrite nonnull_true by done. simpl.
    rewrite !lookup_insert_ne by congruence. rewrite Hm. simpl.
    rewrite nonnull_true by done. reflexivity.
Qed.

Lemma pushback_aborts_witness :
  dlist_pushback 8 (mk_state {[8 := mk_node NULL NULL]} (mk_root 16 NULL)) = Abort.
Proof.
  destruct (pushback_aborts {[8 := mk_node NULL NULL]} (mk_root 16 NULL) 8 (mk_node NULL NULL)) as [H _].
  - vm_compute. reflexivity.
  - apply H.
    + vm_compute. reflexivity.
    + vm_compute. discriminate.
Defined.

(** [remove] of a node with a NULL [prev] aborts unless the node is the
    head; and of a node with NULL [prev] and [next] unless it is also the
    tail.  So removing a detached node (both links NULL) from a handle that
    does not hold it as its only node aborts. *)
Theorem remove_unlinked_aborts h r d n :
  h !! d = Some n -> prev n = NULL ->
  (head r <> d -> dlist_remove d (mk_state h r) = Abort) /\
  (next n = NULL -> tail r <> d -> dlist_remove d (mk_state h r) = Abort).
Proof.
  intros Hd Hp. destruct n as [nx pv]. cbn [prev next] in *. subst pv.
  destruct r as [hd tl]. cbn [head tail]. split.
  - intros Hne. unfold dlist_remove. unfold_m. rewrite Hd. simpl. rewrite ?nonnull_NULL. simpl.
    apply Z.eqb_neq in Hne. rewrite Hne. reflexivity.
  - intros -> Hne. unfold dlist_remove. unfold_m. rewrite Hd. simpl. rewrite ?nonnull_NULL. simpl.
    destruct (hd =? d); simpl; [|reflexivity].
    repeat (rewrite Hd; simpl; rewrite ?nonnull_NULL; simpl).
    apply Z.eqb_neq in Hne. rewrite Hne. reflexivity.
Qed.

Lemma remove_unlinked_aborts_witness :
  dlist_remove (node_at 4) state3 = Abort.
Proof.
  destruct (remove_unlinked_aborts (heap state3) (root state3) (node_at 4) (mk_node 0 0)) as [H _].
  - vm_compute. reflexivity.
  - reflexivity.
  - apply H. vm_compute. discriminate.
Defined.

(** ** What the insertions write *)

(** On any handle and memory, a successful [enqueue d] writes no node but
    [d] and the old head, and a successful [pushback d] no node but [d] and
    the old tail. *)
Theorem insert_frame d s s' x :
  x <> d ->
  (dlist_enqueue d s = Ok tt s' -> x <> head (root s) -> heap s' !! x = heap s !! x) /\
  (dlist_pushback d s = Ok tt s' -> x <> tail (root s) -> heap s' !! x = heap s !! x).
Proof.
  intros Hxd. destruct s as [h [hd tl]]. cbn [heap root head tail]. split.
  - intros Hrun Hx. unfold dlist_enqueue in Hrun. run_in Hrun; by simplify_map_eq.
  - intros Hrun Hx. unfold dlist_pushback in Hrun. run_in Hrun; by simplify_map_eq.
Qed.

Lemma insert_frame_witness :
  heap (after (OEnqueue (node_at 4)) state3) !! node_at 2 = heap state3 !! node_at 2.
Proof.
  destruct (insert_frame (node_at 4) state3 (after (OEnqueue (node_at 4)) state3) (node_at 2)) as [H _].
  - vm_compute. discriminate.
  - apply H.
    + vm_compute. reflexivity.
    + vm_compute. discriminate.
Defined.

(** ** Inserting and removing at the same end *)

Lemma repr_root h h' r r' l : repr h r l -> repr h' r' l -> r' = r.
Proof.
  destruct r as [hd tl], r' as [hd' tl'].
  intros (_ & _ & _ & Hh & Ht) (_ & _ & _ & Hh' & Ht'). cbn [head tail] in *. congruence.
Qed.

Lemma enqueue_pop_run h r l d n0 :
  repr h r l -> h !! d = Some n0 -> d ∉ l -> d <> NULL ->
  exists s1 s2, dlist_enqueue d (mk_state h r) = Ok tt s1 /\ dlist_pop s1 = Ok d s2 /\
                repr (heap s2) (root s2) l.
Proof.
  intros Hl Hd Hdl Hd0.
  destruct (enqueue_run h r l d n0 Hl Hd Hdl Hd0) as ([h1 r1] & E1 & Hl1).
  destruct (pop_run h1 r1 d l Hl1) as (s2 & E2 & Hl2 & _).
  exists (mk_state h1 r1), s2. auto.
Qed.

Lemma pushback_dequeue_run h r l d n0 :
  repr h r l -> h !! d = Some n0 -> d ∉ l -> d <> NULL ->
  exists s1 s2, dlist_pushback d (mk_state h r) = Ok tt s1 /\ dlist_dequeue s1 = Ok d s2 /\
                repr (heap s2) (root s2) l.
Proof.
  intros Hl Hd Hdl Hd0.
  destruct (pushback_run h r l d n0 Hl Hd Hdl Hd0) as ([h1 r1] & E1 & Hl1).
  destruct (dequeue_run h1 r1 l d Hl1) as (s2 & E2 & Hl2 & _).
  exists (mk_state h1 r1), s2. auto.
Qed.

(** On a reachable list, inserting an allocated node that is not a member
    and removing at the same end gives the node back and restores the
    handle and the members: [enqueue] then [pop], and [pushback] then
    [dequeue]; the result is again reachable. *)
Theorem insert_remove_same_end s d :
  reachable s -> is_Some (heap s !! d) -> d ∉ members s ->
  (exists s', (dlist_enqueue d ;;; dlist_pop) s = Ok d s' /\
     root s' = root s /\ members s' = members s /\ reachable s') /\
  (exists s', (dlist_pushback d ;;; dlist_dequeue) s = Ok d s' /\
     root s' = root s /\ members s' = members s /\ reachable s').
Proof.
  intros Hr Hd Hdl. pose proof Hd as [n0 Hn0]. destruct (reachable_inv s Hr) as [Hw _].
  pose proof (reachable_repr s Hr) as Hl.
  assert (Hd0 : d <> NULL) by (apply Hw in Hn0; unfold valid_addr in Hn0; lia).
  destruct s as [h r]. cbn [heap root] in *. split.
  - destruct (enqueue_pop_run h r _ d n0 Hl Hn0 Hdl Hd0) as (s1 & s2 & E1 & E2 & Hl2).
    exists s2. split_and!.
    + rewrite (bind_ok _ _ _ _ _ E1). exact E2.
    + exact (repr_root _ _ _ _ _ Hl Hl2).
    + destruct s2 as [h2 r2]. exact (members_repr _ _ _ Hl2).
    + eapply (reach_step s1 OPop); [eapply (reach_step _ (OEnqueue d)); eauto; split; auto|exact I|].
      simpl. rewrite (bind_ok _ _ _ _ _ E2). reflexivity.
  - destruct (pushback_dequeue_run h r _ d n0 Hl Hn0 Hdl Hd0) as (s1 & s2 & E1 & E2 & Hl2).
    exists s2. split_and!.
    + rewrite (bind_ok _ _ _ _ _ E1). exact E2.
    + exact (repr_root _ _ _ _ _ Hl Hl2).
    + destruct s2 as [h2 r2]. exact (members_repr _ _ _ Hl2).
    + eapply (reach_step s1 ODequeue); [eapply (reach_step _ (OPushback d)); eauto; split; auto|exact I|].
      simpl. rewrite (bind_ok _ _ _ _ _ E2). reflexivity.
Qed.

Lemma insert_remove_same_end_witness :
  exists s', (dlist_pushback (node_at 4) ;;; dlist_dequeue) state3 = Ok (node_at 4) s' /\
             root s' = root state3.
Proof.
  destruct (insert_remove_same_end state3 (node_at 4) reach_state3) as [_ (s' & E & Hr & _)].
  - unfold is_Some. vm_compute. eauto.
  - refine (bool_decide_unpack _ _). vm_compute. exact I.
  - exists s'. split; assumption.
Defined.

(** ** Record pointers *)

Lemma container_of_field off data :
  0 <= data < addr_mod -> GET_CONTAINER off (field_addr off data) = data.
Proof.
  intros Hd. unfold GET_CONTAINER, field_addr. rewrite Zminus_mod_idemp_l.
  replace (data + off - off) with data by lia. apply Z.mod_small. exact Hd.
Qed.

(** [GET_CONTAINER] and [&data->metaname] are inverse on 64-bit addresses,
    for any offset: the record of the link field of [data] is [data], and
    the link field of the record of [p] is [p]. *)
Theorem container_round_trip off x :
  0 <= x < addr_mod ->
  GET_CONTAINER off (field_addr off x) = x /\ field_addr off (GET_CONTAINER off x) = x.
Proof.
  intros Hx. split; [exact (container_of_field off x Hx)|].
  unfold GET_CONTAINER, field_addr. rewrite Zplus_mod_idemp_l.
  replace (x - off + off) with x by lia. apply Z.mod_small. exact Hx.
Qed.

Lemma container_round_trip_witness :
  GET_CONTAINER 16 (field_addr 16 (2 ^ 64 - 8)) = 2 ^ 64 - 8 /\
  field_addr 16 (GET_CONTAINER 16 8) = 8.
Proof.
  destruct (container_round_trip 16 (2 ^ 64 - 8)) as [H1 _]; [unfold addr_mod; lia|].
  destruct (container_round_trip 16 8) as [_ H2]; [unfold addr_mod; lia|].
  split; [exact H1|exact H2].
Defined.

(** On a reachable list, inserting a record whose link field is allocated
    and not linked, with the typed [enqueue] or [pushback], and removing at
    the same end with the typed [pop] or [dequeue], returns that record and
    leaves the members as they were. *)
Theorem typed_insert_remove off s rc :
  reachable s -> 0 <= rc < addr_mod ->
  is_Some (heap s !! field_addr off rc) -> field_addr off rc ∉ members s ->
  (exists s', (dlist_type_enqueue off rc ;;; dlist_type_pop off) s = Ok rc s' /\
     members s' = members s) /\
  (exists s', (dlist_type_pushback off rc ;;; dlist_type_dequeue off) s = Ok rc s' /\
     members s' = members s).
Proof.
  intros Hr Hrc Hd Hdl. pose proof Hd as [n0 Hn0]. destruct (reachable_inv s Hr) as [Hw _].
  pose proof (reachable_repr s Hr) as Hl.
  set (d := field_addr off rc) in *.
  assert (Hd0 : d <> NULL) by (apply Hw in Hn0; unfold valid_addr in Hn0; lia).
  destruct s as [h r]. cbn [heap root] in *. split.
  - destruct (enqueue_pop_run h r _ d n0 Hl Hn0 Hdl Hd0) as (s1 & s2 & E1 & E2 & Hl2).
    exists s2. split.
    + unfold dlist_type_enqueue. rewrite (bind_ok _ _ _ _ _ E1).
      unfold dlist_type_pop. rewrite (bind_ok _ _ _ _ _ E2).
      unfold ret, d. rewrite (container_of_field off rc Hrc). reflexivity.
    + destruct s2 as [h2 r2]. exact (members_repr _ _ _ Hl2).
  - destruct (pushback_dequeue_run h r _ d n0 Hl Hn0 Hdl Hd0) as (s1 & s2 & E1 & E2 & Hl2).
    exists s2. split.
    + unfold dlist_type_pushback. rewrite (bind_ok _ _ _ _ _ E1).
      unfold dlist_type_dequeue. rewrite (bind_ok _ _ _ _ _ E2).
      unfold ret, d. rewrite (container_of_field off rc Hrc). reflexivity.
    + destruct s2 as [h2 r2]. exact (members_repr _ _ _ Hl2).
Qed.

Lemma typed_insert_remove_witness :
  exists s', (dlist_type_enqueue mynode_off (rec_addr 4) ;;; dlist_type_pop mynode_off) state3
             = Ok (rec_addr 4) s'.
Proof.
  destruct (typed_insert_remove mynode_off state3 (rec_addr 4) reach_state3) as [(s' & E & _) _].
  - unfold addr_mod, rec_addr. lia.
  - unfold is_Some. vm_compute. eauto.
  - refine (bool_decide_unpack _ _). vm_compute. exact I.
  - exists s'. exact E.
Defined.

(** ** Inserting a member again *)

(** The insertions do not check that the node is not already linked:
    [enqueue] of the head of a non-empty reachable list succeeds, and
    leaves a handle that [dlist_check] rejects (the head node now points to
    itself). *)
Theorem enqueue_head_again s :
  reachable s -> members s <> [] ->
  exists s', dlist_enqueue (head (root s)) s = Ok tt s' /\ dlist_check s' = Abort.
Proof.
  intros Hr Hne. pose proof (reachable_repr s Hr) as Hl.
  remember (members s) as l eqn:El. clear El.
  destruct l as [|a l]; [congruence|].
  destruct s as [h [hd tl]]. destruct Hl as (Hs & _ & Hn & Hh & _). cbn [heap root head tail] in *.
  subst hd. destruct Hs as [Ha _]. simpl. apply not_elem_of_cons in Hn as [Ha0 _].
  unfold dlist_enqueue. unfold_m. rewrite Ha. simpl. rewrite lookup_insert_eq. simpl.
  rewrite nonnull_true by done. simpl. rewrite lookup_insert_eq. simpl.
  rewrite ?nonnull_NULL. simpl. rewrite lookup_insert_eq. simpl.
  eexists; split; [reflexivity|].
  apply (check_head_prev_abort _ _ (mk_node a a)); simpl; [done| |done].
  rewrite lookup_insert_eq. reflexivity.
Qed.

Lemma enqueue_head_again_witness :
  exists s', dlist_enqueue (node_at 1) state3 = Ok tt s' /\ dlist_check s' = Abort.
Proof.
  destruct (enqueue_head_again state3 reach_state3) as (s' & E & Hc).
  - vm_compute. discriminate.
  - exists s'. split; [exact E|exact Hc].
Defined.
